(** * Meta Ad Library search proxy: the client pipeline of [meta_client.py]

    A shallow embedding of the fetch / paginate / rate-limit / normalise /
    sort pipeline of [meta_client.py] together with the two data models of
    [models.py] it uses, followed by the properties of the specification
    that are settled against it.

    Conventions of the embedding.
    - A Python object is a [value]; a JSON document decoded by
      [response.json()] is a [value] without tuples.
    - A Python [str] is a Rocq [string] whose characters stand for code
      points (restricted to the range an [ascii] holds); comparison of
      strings is the lexicographic comparison of code points.
    - A Python [dict] is an association list whose keys are pairwise
      distinct; [dict.get] returns the first binding of the key.
    - A raised exception is the [Raise] case of [result]; the statements of
      a Python function are chained with the bind of that monad.
    - A Python [float] is a [PrimFloat.float], an IEEE 754 binary64 number
      with the arithmetic and the comparisons the standard library
      specifies for it.
    - [str(x)] of the Python runtime is a parameter [py_str] of the
      development. *)

From Stdlib Require Import ZArith List String Ascii Bool Lia.
From Stdlib Require Import PrimFloat FloatOps FloatAxioms SpecFloat.
From Stdlib Require Import Permutation Sorted QArith Qminmax Lqa.
Import ListNotations.

Set Warnings "-register-all".
Local Open Scope string_scope.
Local Open Scope list_scope.

(** ** Python values, truthiness and exceptions *)

Module Py.

Inductive value : Type :=
| PNone
| PBool (b : bool)
| PInt (n : Z)
| PFloat (f : float)
| PStr (s : string)
| PList (items : list value)
| PTuple (items : list value)
| PDict (entries : list (string * value)).

(** The transport exceptions of httpx that the client distinguishes: the
    four timeout classes, their base class, and every other transport
    failure. *)
Inductive httpx_exc : Type :=
| ConnectTimeout | ReadTimeout | WriteTimeout | PoolTimeout
| TimeoutException
| TransportError.

Inductive exn : Type :=
| AttributeError
| TypeError
| ValueError
| ValidationError
| HttpxError (kind : httpx_exc) (msg : string)
| MetaAPIError (status_code : Z) (code : value) (message : value)
| MetaTimeoutError (msg : string).

Inductive result (A : Type) : Type :=
| Ok (a : A)
| Raise (e : exn).
Arguments Ok {A} a.
Arguments Raise {A} e.

Definition bind {A B : Type} (m : result A) (k : A -> result B) : result B :=
  match m with
  | Ok a => k a
  | Raise e => Raise e
  end.

Fixpoint mapM {A B : Type} (f : A -> result B) (l : list A) : result (list B) :=
  match l with
  | [] => Ok []
  | x :: l' =>
      bind (f x) (fun y => bind (mapM f l') (fun ys => Ok (y :: ys)))
  end.

(** [bool(v)]. *)
Definition truthy (v : value) : bool :=
  match v with
  | PNone => false
  | PBool b => b
  | PInt n => negb (n =? 0)%Z
  | PFloat f => negb (PrimFloat.eqb f 0%float)
  | PStr s => negb (String.eqb s EmptyString)
  | PList items | PTuple items => match items with [] => false | _ => true end
  | PDict entries => match entries with [] => false | _ => true end
  end.

(** [a or b]. *)
Definition py_or (a b : value) : value := if truthy a then a else b.

Fixpoint lookup (key : string) (entries : list (string * value)) : option value :=
  match entries with
  | [] => None
  | (k, v) :: rest => if String.eqb k key then Some v else lookup key rest
  end.

(** [obj.get(key, default)]: only a dict has the method. *)
Definition py_get_default (obj : value) (key : string) (default : value) : result value :=
  match obj with
  | PDict entries =>
      Ok (match lookup key entries with Some v => v | None => default end)
  | _ => Raise AttributeError
  end.

(** [obj.get(key)]. *)
Definition py_get (obj : value) (key : string) : result value :=
  py_get_default obj key PNone.

Fixpoint chars (s : string) : list value :=
  match s with
  | EmptyString => []
  | String c s' => PStr (String c EmptyString) :: chars s'
  end.

(** The elements [list.extend(obj)] appends: those of a list or tuple, the
    characters of a string, the keys of a dict; anything else is not
    iterable. *)
Definition py_iter (obj : value) : result (list value) :=
  match obj with
  | PList items | PTuple items => Ok items
  | PStr s => Ok (chars s)
  | PDict entries => Ok (map (fun kv => PStr (fst kv)) entries)
  | _ => Raise TypeError
  end.

(** [l[:n]] for an integer [n] of either sign. *)
Definition py_slice_to {A : Type} (n : Z) (l : list A) : list A :=
  if (0 <=? n)%Z then firstn (Z.to_nat n) l
  else firstn (Z.to_nat (Z.of_nat (List.length l) + n)) l.

Definition is_none (v : value) : bool :=
  match v with PNone => true | _ => false end.

Definition is_list (v : value) : bool :=
  match v with PList _ => true | _ => false end.

(** *** [sorted(l, key=..., reverse=...)] on keys that are pairs of strings *)

(** [a < b] on tuples of two strings: the first component that differs
    decides. *)
Definition key_lt (a b : string * string) : bool :=
  match String.compare (fst a) (fst b) with
  | Lt => true
  | Eq => String.ltb (snd a) (snd b)
  | Gt => false
  end.

Definition key_eqb (a b : string * string) : bool :=
  String.eqb (fst a) (fst b) && String.eqb (snd a) (snd b).

Section Sorted.
Context {A : Type} (key : A -> string * string).

(** Stable insertion using [<] only: [x] goes in front of the first
    element that is not smaller than it. *)
Fixpoint insert (x : A) (l : list A) : list A :=
  match l with
  | [] => [x]
  | y :: l' => if key_lt (key y) (key x) then y :: insert x l' else x :: l
  end.

Fixpoint stable_sort (l : list A) : list A :=
  match l with
  | [] => []
  | x :: l' => insert x (stable_sort l')
  end.

(** [reverse=True] reverses the list, sorts it stably in ascending order
    and reverses the outcome, which keeps the sort stable. *)
Definition sorted (reverse : bool) (l : list A) : list A :=
  if reverse then rev (stable_sort (rev l)) else stable_sort l.
End Sorted.

End Py.
Import Py.

Notation "x <- m ;; k" := (bind m (fun x => k))
  (at level 61, m at next level, right associativity).

(** ** [models.py] *)

Module Models.

Record AdsQuery : Type := mkAdsQuery {
  industry : string;
  country : string;
  limit : Z
}.

(** The [Field] constraints of [AdsQuery]. *)
Definition AdsQuery_valid (q : AdsQuery) : bool :=
  (2 <=? String.length (industry q))%nat
  && (String.length (country q) =? 2)%nat
  && (1 <=? limit q)%Z && (limit q <=? 100)%Z.

Inductive Status : Type := active | inactive.

Record NormalisedAd : Type := mkNormalisedAd {
  source : string;
  advertiser : option string;
  title : option string;
  body : option string;
  creative_url : option string;
  first_seen : option string;
  last_seen : option string;
  status : option Status;
  platforms : option (list string);
  snapshot_url : option string
}.

(** Whitespace of [str_strip_whitespace]. *)
Definition is_whitespace (c : ascii) : bool :=
  let n := nat_of_ascii c in
  ((9 <=? n) && (n <=? 13) || (n =? 32) || (n =? 133) || (n =? 160))%nat.

Fixpoint lstrip (s : string) : string :=
  match s with
  | EmptyString => EmptyString
  | String c s' => if is_whitespace c then lstrip s' else s
  end.

Fixpoint rstrip (s : string) : string :=
  match s with
  | EmptyString => EmptyString
  | String c s' =>
      match rstrip s' with
      | EmptyString => if is_whitespace c then EmptyString else String c EmptyString
      | r => String c r
      end
  end.

Definition strip (s : string) : string := rstrip (lstrip s).

(** The models are pydantic models (of version 2, whose [ConfigDict] and
    [field_validator] the file imports): building one validates every
    argument against the annotation of its field and raises a
    [ValidationError] when one does not fit. A field annotated [str]
    accepts a string and nothing else that JSON decodes to, and under
    [ConfigDict(str_strip_whitespace=True)] keeps it without its leading
    and trailing whitespace. *)
Definition validate_str (v : value) : result string :=
  match v with
  | PStr s => Ok (strip s)
  | _ => Raise ValidationError
  end.

(** [Optional[str]]. *)
Definition validate_opt_str (v : value) : result (option string) :=
  match v with
  | PNone => Ok None
  | _ => s <- validate_str v ;; Ok (Some s)
  end.

(** [Optional[List[str]]]; the client passes [None] or a list. *)
Definition validate_opt_list_str (v : value) : result (option (list string)) :=
  match v with
  | PNone => Ok None
  | PList items => l <- mapM validate_str items ;; Ok (Some l)
  | _ => Raise ValidationError
  end.

(** [Optional[Literal["active", "inactive"]]]. *)
Definition validate_status (v : value) : result (option Status) :=
  match v with
  | PNone => Ok None
  | PStr s =>
      if String.eqb s "active" then Ok (Some active)
      else if String.eqb s "inactive" then Ok (Some inactive)
      else Raise ValidationError
  | _ => Raise ValidationError
  end.

(** [NormalisedAd(advertiser=..., ...)]: every keyword argument is
    validated against the annotation of its field; [source] keeps its
    default. *)
Definition NormalisedAd_init
    (advertiser_ title_ body_ creative_url_ first_seen_ last_seen_
     status_ platforms_ snapshot_url_ : value) : result NormalisedAd :=
  a <- validate_opt_str advertiser_ ;;
  t <- validate_opt_str title_ ;;
  b <- validate_opt_str body_ ;;
  cu <- validate_opt_str creative_url_ ;;
  fs <- validate_opt_str first_seen_ ;;
  ls <- validate_opt_str last_seen_ ;;
  st <- validate_status status_ ;;
  ps <- validate_opt_list_str platforms_ ;;
  su <- validate_opt_str snapshot_url_ ;;
  Ok (mkNormalisedAd "meta" a t b cu fs ls st ps su).

End Models.
Import Models.

(** ** [meta_client.py] *)

Module MetaClient.

Definition BASE_URL : string := "https://graph.facebook.com/v23.0/ads_archive".
Definition RATE_LIMIT_PER_SECOND : nat := 5.
Definition RATE_LIMIT_WINDOW : float := 1%float.
(** [(0.05, 0.15)]: the doubles that the two literals denote. *)
Definition RATE_LIMIT_JITTER_RANGE : float * float :=
  (0x1.999999999999ap-5, 0x1.3333333333333p-3)%float.
Definition PAGE_DELAY_SECONDS : float := 0x1.3333333333333p-3%float.

(** *** [_wait_for_rate_limit_slot]

    Clock readings of [time.monotonic()] are doubles, and the subtractions,
    the addition and the comparisons of the source are those of IEEE 754
    binary64, as [PrimFloat] has them. The body of [async with
    _request_lock] holds no [await], so each pass through it is one atomic
    [attempt] on the shared deque [_request_timestamps] (oldest entry
    first), whichever caller makes it; the readings of successive passes
    are finite and do not decrease, the clock being monotonic. The jitter
    of [random.uniform] is any double of [RATE_LIMIT_JITTER_RANGE]. *)

(** Lines 49-50. *)
Fixpoint prune (now : float) (timestamps : list float) : list float :=
  match timestamps with
  | [] => []
  | oldest :: rest =>
      if (RATE_LIMIT_WINDOW <=? now - oldest)%float then prune now rest
      else timestamps
  end.

Inductive attempt_result : Type :=
| Granted (timestamps : list float)
| Full (timestamps : list float) (wait_time : float).

(** Lines 48-54; index 0 exists in the second branch because the deque
    holds at least [RATE_LIMIT_PER_SECOND] entries there. *)
Definition attempt (now : float) (timestamps : list float) : attempt_result :=
  let timestamps := prune now timestamps in
  if (List.length timestamps <? RATE_LIMIT_PER_SECOND)%nat
  then Granted (timestamps ++ [now])
  else Full timestamps (RATE_LIMIT_WINDOW - (now - hd 0 timestamps))%float.

(** [max(a, b)] of two floats: [b] when [b > a], else [a]. *)
Definition py_max (a b : float) : float := if (a <? b)%float then b else a.

(** The argument of [asyncio.sleep] on line 56. *)
Definition sleep_time (wait_time jitter : float) : float :=
  (py_max wait_time 0 + jitter)%float.

(** What [random.uniform(a, b)] documents of its result. *)
Definition jitter_in_range (jitter : float) : bool :=
  (fst RATE_LIMIT_JITTER_RANGE <=? jitter)%float
  && (jitter <=? snd RATE_LIMIT_JITTER_RANGE)%float.

(** The [while True] loop of one caller while no other caller touches the
    deque. Each pass reads the clock and, when it is refused, draws a
    jitter: [passes] lists the reading and the jitter of the passes to
    come. The result is the deque left behind and the arguments of the
    calls of [asyncio.sleep], or [None] when [passes] is used up before a
    pass is granted. *)
Fixpoint _wait_for_rate_limit_slot (passes : list (float * float))
    (timestamps : list float) : option (list float * list float) :=
  match passes with
  | [] => None
  | (now, jitter) :: later =>
      match attempt now timestamps with
      | Granted timestamps' => Some (timestamps', [])
      | Full timestamps' wait_time =>
          match _wait_for_rate_limit_slot later timestamps' with
          | Some (ts, sleeps) => Some (ts, sleep_time wait_time jitter :: sleeps)
          | None => None
          end
      end
  end.

(** The gate under any number of concurrent callers: the shared deque and
    the history of every timestamp ever recorded in it. *)
Record gate : Type := mkGate {
  request_timestamps : list float;
  recorded : list float
}.

Definition gate_init : gate := mkGate [] [].

(** One pass through the critical section at clock reading [now]. *)
Definition gate_step (g : gate) (now : float) : gate :=
  match attempt now (request_timestamps g) with
  | Granted timestamps => mkGate timestamps (recorded g ++ [now])
  | Full timestamps _ => mkGate timestamps (recorded g)
  end.

(** A call of [_wait_for_rate_limit_slot] in flight: it has not entered
    the critical section yet, or it was refused at the reading [since] and
    called [asyncio.sleep(delay)], or it has returned. *)
Inductive caller : Type :=
| Calling
| Sleeping (since delay : float)
| Returned.

(** The event loop with its calls in flight: the latest clock reading,
    the gate, and the callers in the order of their calls. *)
Record system : Type := mkSystem {
  clock : float;
  shared : gate;
  callers : list caller
}.

Definition system_init (start : float) : system := mkSystem start gate_init [].

(** What the event loop does next: it starts a further call, or it runs
    the critical section of caller [i], who reads the clock at [now] and,
    if refused, draws [jitter]. *)
Inductive event : Type :=
| Call
| Pass (i : nat) (now jitter : float).

Fixpoint set_caller (i : nat) (c : caller) (cs : list caller) : list caller :=
  match cs, i with
  | [], _ => []
  | _ :: rest, O => c :: rest
  | c0 :: rest, S j => c0 :: set_caller j c rest
  end.

(** Lines 51-56 for the caller: it returns, or sleeps and loops. *)
Definition after_attempt (now jitter : float) (timestamps : list float) : caller :=
  match attempt now timestamps with
  | Granted _ => Returned
  | Full _ wait_time => Sleeping now (sleep_time wait_time jitter)
  end.

Definition in_flight (c : caller) : bool :=
  match c with Returned => false | _ => true end.

(** One event; [None] when the runtime cannot produce it: the reading of
    [time.monotonic()] is not a finite number or lies before the latest
    one, the caller has returned or never called, or the jitter is out of
    range. When the event loop wakes a sleeping caller is left open: it may
    pass at any reading. *)
Definition step (s : system) (e : event) : option system :=
  match e with
  | Call => Some (mkSystem (clock s) (shared s) (callers s ++ [Calling]))
  | Pass i now jitter =>
      match nth_error (callers s) i with
      | Some c =>
          if in_flight c && is_finite now && (clock s <=? now)%float
             && jitter_in_range jitter
          then Some (mkSystem now (gate_step (shared s) now)
                       (set_caller i
                          (after_attempt now jitter (request_timestamps (shared s)))
                          (callers s)))
          else None
      | None => None
      end
  end.

(** The executions of any number of concurrent callers. *)
Fixpoint execute (events : list event) (s : system) : option system :=
  match events with
  | [] => Some s
  | e :: rest =>
      match step s e with
      | Some s' => execute rest s'
      | None => None
      end
  end.

(** *** [_first_or_none] *)

Definition _first_or_none (values : value) : value :=
  match values with
  | PList items => match items with x :: _ => x | [] => PNone end
  | PTuple items => match items with x :: _ => x | [] => PNone end
  | PStr s => PStr s
  | _ => PNone
  end.

(** *** [_normalise_record] *)

Section Normalise.
(** [str(x)] of the Python runtime. *)
Variable py_str : value -> string.

Definition _normalise_record (record : value) : result NormalisedAd :=
  advertiser <- py_get record "page_name" ;;
  titles <- py_get record "ad_creative_link_titles" ;;
  let title := _first_or_none titles in
  bodies <- py_get record "ad_creative_bodies" ;;
  let body := _first_or_none bodies in
  snapshot_url <- py_get record "ad_snapshot_url" ;;
  start_time <- py_get record "ad_delivery_start_time" ;;
  stop_raw <- py_get record "ad_delivery_stop_time" ;;
  let stop_time := py_or stop_raw PNone in
  creation_time <- py_get record "ad_creation_time" ;;
  let last_seen := py_or stop_time creation_time in
  let status := if truthy stop_time then PStr "inactive" else PStr "active" in
  platforms <- py_get record "publisher_platforms" ;;
  let platforms :=
    if negb (is_none platforms) && negb (is_list platforms)
    then PList [PStr (py_str platforms)]
    else platforms in
  NormalisedAd_init advertiser title body snapshot_url start_time last_seen
                    status platforms snapshot_url.
End Normalise.

(** *** [_sort_ads] *)

(** [x or ""] on an optional string. *)
Definition or_empty (x : option string) : string :=
  match x with
  | Some s => s
  | None => EmptyString
  end.

(** The [key] lambda of [_sort_ads]. *)
Definition sort_key (ad : NormalisedAd) : string * string :=
  (or_empty (last_seen ad), or_empty (first_seen ad)).

Definition _sort_ads (ads : list NormalisedAd) : list NormalisedAd :=
  sorted sort_key true ads.

(** *** [fetch_ads] *)

(** What the client reads of an httpx response: the status, the body text,
    and the outcome of [response.json()], which is [None] when the body
    does not decode ([ValueError]). The decoding that relates the two last
    fields is left out: the client reads the text only when the body does
    not decode. *)
Record Response : Type := mkResponse {
  status_code : Z;
  text : string;
  json : option value
}.

(** The outcome of one [client.get]. *)
Inductive http_outcome : Type :=
| Responded (r : Response)
| Failed (kind : httpx_exc) (msg : string).

Record Params : Type := mkParams {
  search_terms : string;
  ad_active_status : string;
  ad_reached_countries : string;
  fields : string;
  page_size : Z;
  access_token : string
}.

Inductive request : Type :=
| GetParams (url : string) (params : Params)
| GetUrl (url : string).

Definition FIELDS : string :=
  ("ad_creation_time,ad_delivery_start_time,ad_delivery_stop_time,"
   ++ "ad_snapshot_url,page_id,page_name,ad_creative_bodies,"
   ++ "ad_creative_link_titles,ad_creative_link_descriptions,publisher_platforms")%string.

Definition build_params (query : AdsQuery) (token : string) : Params :=
  mkParams (industry query) "ALL" (country query) FIELDS (limit query) token.

(** How one iteration of the [while True] loop ends. *)
Inductive control : Type :=
| Break (raw_records : list value)
| Continue (raw_records : list value) (next_url : value).

(** Lines 141-151: the branch of a status other than 200. *)
Definition raise_api_error (response : Response) : result control :=
  let payload :=
    match json response with
    | Some p => p
    | None => PDict [("error", PDict [("message", PStr (text response))])]
    end in
  error <- py_get_default payload "error" (PDict []) ;;
  code <- py_get error "code" ;;
  message <- py_get_default error "message" (PStr "Meta API error") ;;
  Raise (MetaAPIError (status_code response) code message).

(** Lines 141-162: what the loop does with a response. *)
Definition handle_response (query : AdsQuery) (raw_records : list value)
    (response : Response) : result control :=
  if negb (status_code response =? 200)%Z then raise_api_error response
  else
    match json response with
    | None => Raise ValueError
    | Some payload =>
        data <- py_get_default payload "data" (PList []) ;;
        items <- py_iter data ;;
        let raw_records := raw_records ++ items in
        if (Z.of_nat (List.length raw_records) >=? limit query)%Z
        then Ok (Break raw_records)
        else
          paging <- py_get_default payload "paging" (PDict []) ;;
          next_url <- py_get paging "next" ;;
          if negb (truthy next_url) then Ok (Break raw_records)
          else Ok (Continue raw_records next_url)
    end.

(** The request of lines 135-138; httpx refuses a URL that is neither a
    string nor one of its own URL objects with a [TypeError]. *)
Definition next_request (params : Params) (next_url : value) : result request :=
  if truthy next_url then
    match next_url with
    | PStr u => Ok (GetUrl u)
    | _ => Raise TypeError
    end
  else Ok (GetParams BASE_URL params).

(** What a run of the loop leaves behind: the requests issued, the value
    of [page_count], and the accumulator or the exception that left the
    loop. *)
Record loop_end : Type := mkLoopEnd {
  requests : list request;
  page_count : nat;
  ended : result (list value)
}.

(** The [while True] loop of lines 133-162 against a scripted upstream:
    [upstream] lists the outcomes of the successive [client.get] calls.
    The result is [None] when the loop asks for more outcomes than the
    script holds. The rate-limiter gate and the inter-page sleep only
    delay; they are modelled apart, in [RateLimiter]. *)
Fixpoint fetch_loop (query : AdsQuery) (params : Params)
    (upstream : list http_outcome) (raw_records : list value)
    (next_url : value) (reqs : list request) (pages : nat) : option loop_end :=
  match next_request params next_url with
  | Raise e => Some (mkLoopEnd reqs pages (Raise e))
  | Ok req =>
      match upstream with
      | [] => None
      | Failed kind msg :: _ =>
          Some (mkLoopEnd (reqs ++ [req]) pages (Raise (HttpxError kind msg)))
      | Responded response :: rest =>
          let pages := S pages in
          match handle_response query raw_records response with
          | Raise e => Some (mkLoopEnd (reqs ++ [req]) pages (Raise e))
          | Ok (Break raw) => Some (mkLoopEnd (reqs ++ [req]) pages (Ok raw))
          | Ok (Continue raw next) =>
              fetch_loop query params rest raw next (reqs ++ [req]) pages
          end
      end
  end.

(** The [except] clause of lines 163-170. *)
Definition is_timeout (kind : httpx_exc) : bool :=
  match kind with
  | ConnectTimeout | ReadTimeout | WriteTimeout | PoolTimeout
  | TimeoutException => true
  | TransportError => false
  end.

Definition except_timeout {A : Type} (r : result A) : result A :=
  match r with
  | Raise (HttpxError kind msg) =>
      if is_timeout kind then Raise (MetaTimeoutError msg)
      else Raise (HttpxError kind msg)
  | _ => r
  end.

(** The record the [finally] clause logs, without the wall-clock
    duration. *)
Record log_record : Type := mkLog {
  log_industry : string;
  log_country : string;
  log_pages : nat
}.

(** What an execution of [fetch_ads] shows: the requests it issued, the
    record it logged, and what it returned or raised. *)
Record run : Type := mkRun {
  issued : list request;
  logged : log_record;
  outcome : result (list NormalisedAd)
}.

Section Fetch.
Variable py_str : value -> string.

(** Lines 181-185. *)
Definition finish (query : AdsQuery) (raw_records : list value)
    : result (list NormalisedAd) :=
  let raw_records :=
    if truthy (PList raw_records)
    then py_slice_to (limit query) raw_records
    else raw_records in
  normalised <- mapM (_normalise_record py_str) raw_records ;;
  Ok (_sort_ads normalised).

Definition fetch_ads (query : AdsQuery) (token : string)
    (upstream : list http_outcome) : option run :=
  let params := build_params query token in
  match fetch_loop query params upstream [] PNone [] 0 with
  | None => None
  | Some e =>
      Some (mkRun (requests e)
                  (mkLog (industry query) (country query) (page_count e))
                  (raw_records <- except_timeout (ended e) ;;
                   finish query raw_records))
  end.
End Fetch.

End MetaClient.
Import MetaClient.

(** * Properties *)

(** ** The order on sort keys *)

Section Comparison.
Variable T : Type.
Variable cmp : T -> T -> comparison.
Hypothesis cmp_antisym : forall a b, cmp a b = CompOpp (cmp b a).
Hypothesis cmp_eq : forall a b, cmp a b = Eq -> a = b.
Hypothesis cmp_lt_trans :
  forall a b c, cmp a b = Lt -> cmp b c = Lt -> cmp a c = Lt.

Lemma cmp_refl a : cmp a a = Eq.
Proof.
  specialize (cmp_antisym a a). destruct (cmp a a); simpl in *; congruence.
Qed.

Lemma cmp_not_gt_trans a b c :
  cmp a b <> Gt -> cmp b c <> Gt -> cmp a c <> Gt.
Proof.
  intros Hab Hbc.
  destruct (cmp a b) eqn:Eab; try congruence.
  - apply cmp_eq in Eab. subst. exact Hbc.
  - destruct (cmp b c) eqn:Ebc; try congruence.
    + apply cmp_eq in Ebc. subst. congruence.
    + rewrite (cmp_lt_trans _ _ _ Eab Ebc). discriminate.
Qed.
End Comparison.

Lemma ascii_compare_lt_trans a b c :
  Ascii.compare a b = Lt -> Ascii.compare b c = Lt -> Ascii.compare a c = Lt.
Proof.
  unfold Ascii.compare. rewrite !N.compare_lt_iff. apply N.lt_trans.
Qed.

Lemma string_compare_lt_trans a :
  forall b c, String.compare a b = Lt -> String.compare b c = Lt ->
              String.compare a c = Lt.
Proof.
  induction a as [|x a IH]; intros [|y b] [|z c]; simpl; try congruence.
  destruct (Ascii.compare x y) eqn:Exy; try discriminate;
    destruct (Ascii.compare y z) eqn:Eyz; try discriminate; intros Hab Hbc.
  - apply Ascii.compare_eq_iff in Exy, Eyz. subst.
    rewrite (cmp_refl _ _ Ascii.compare_antisym). eauto.
  - apply Ascii.compare_eq_iff in Exy. subst. now rewrite Eyz.
  - apply Ascii.compare_eq_iff in Eyz. subst. now rewrite Exy.
  - now rewrite (ascii_compare_lt_trans _ _ _ Exy Eyz).
Qed.

(** Three-way comparison of keys, of which [key_lt] is the [Lt] case. *)
Definition key_compare (a b : string * string) : comparison :=
  match String.compare (fst a) (fst b) with
  | Eq => String.compare (snd a) (snd b)
  | c => c
  end.

Lemma key_lt_compare a b : key_lt a b = true <-> key_compare a b = Lt.
Proof.
  unfold key_lt, key_compare, String.ltb.
  destruct (String.compare (fst a) (fst b));
    [destruct (String.compare (snd a) (snd b))|..]; split; congruence.
Qed.

Lemma key_compare_antisym a b : key_compare a b = CompOpp (key_compare b a).
Proof.
  unfold key_compare. rewrite (String.compare_antisym (fst a) (fst b)).
  destruct (String.compare (fst b) (fst a)); simpl; auto.
  apply String.compare_antisym.
Qed.

Lemma key_compare_eq a b : key_compare a b = Eq -> a = b.
Proof.
  unfold key_compare. destruct a as [a1 a2], b as [b1 b2]. simpl.
  destruct (String.compare a1 b1) eqn:E1; try discriminate.
  intros E2. apply String.compare_eq_iff in E1, E2. congruence.
Qed.

Lemma key_compare_lt_trans a b c :
  key_compare a b = Lt -> key_compare b c = Lt -> key_compare a c = Lt.
Proof.
  unfold key_compare.
  destruct (String.compare (fst a) (fst b)) eqn:Eab; try discriminate;
    destruct (String.compare (fst b) (fst c)) eqn:Ebc; try discriminate;
    intros Hab Hbc.
  - apply String.compare_eq_iff in Eab, Ebc. rewrite Eab, Ebc.
    rewrite (cmp_refl _ _ String.compare_antisym).
    eapply string_compare_lt_trans; eauto.
  - apply String.compare_eq_iff in Eab. rewrite Eab, Ebc. reflexivity.
  - apply String.compare_eq_iff in Ebc. rewrite <- Ebc, Eab. reflexivity.
  - now rewrite (string_compare_lt_trans _ _ _ Eab Ebc).
Qed.

Lemma key_lt_irrefl a : key_lt a a = false.
Proof.
  destruct (key_lt a a) eqn:E; auto.
  apply key_lt_compare in E.
  rewrite (cmp_refl _ _ key_compare_antisym) in E. discriminate.
Qed.

Lemma key_lt_asym a b : key_lt a b = true -> key_lt b a = false.
Proof.
  intros H. apply key_lt_compare in H.
  destruct (key_lt b a) eqn:E; auto.
  apply key_lt_compare in E. rewrite key_compare_antisym, E in H. discriminate.
Qed.

Lemma key_not_lt_compare a b : key_lt a b = false <-> key_compare b a <> Gt.
Proof.
  rewrite key_compare_antisym.
  destruct (key_lt a b) eqn:E.
  - apply key_lt_compare in E. rewrite E. simpl. split; congruence.
  - split; auto. intros _ H.
    assert (key_compare a b = Lt) by (destruct (key_compare a b); simpl in H; congruence).
    apply key_lt_compare in H0. congruence.
Qed.

(** [a >= b] and [b >= c] give [a >= c]. *)
Lemma key_not_lt_trans a b c :
  key_lt a b = false -> key_lt b c = false -> key_lt a c = false.
Proof.
  rewrite !key_not_lt_compare. intros Hab Hbc.
  exact (cmp_not_gt_trans _ _ key_compare_eq key_compare_lt_trans
           _ _ _ Hbc Hab).
Qed.

Lemma key_eqb_eq a b : key_eqb a b = true <-> a = b.
Proof.
  unfold key_eqb. destruct a, b. simpl.
  rewrite andb_true_iff, !String.eqb_eq. split.
  - intros [-> ->]. reflexivity.
  - intros H. inversion H. auto.
Qed.

(** ** The stable sort *)

Section SortFacts.
Context {A : Type} (key : A -> string * string).

(** [a] may stand in front of [b] in an ascending list. *)
Definition ascending (a b : A) : Prop := key_lt (key b) (key a) = false.
(** [a] may stand in front of [b] in a descending list. *)
Definition descending (a b : A) : Prop := key_lt (key a) (key b) = false.

Lemma insert_perm x l : Permutation (x :: l) (insert key x l).
Proof.
  induction l as [|y l IH]; simpl; auto.
  destruct (key_lt (key y) (key x)); auto.
  rewrite perm_swap. apply perm_skip. exact IH.
Qed.

Lemma stable_sort_perm l : Permutation l (stable_sort key l).
Proof.
  induction l as [|x l IH]; simpl; auto.
  rewrite <- insert_perm. apply perm_skip. exact IH.
Qed.

Lemma insert_sorted x l :
  StronglySorted ascending l -> StronglySorted ascending (insert key x l).
Proof.
  induction 1 as [|y l Hs IH Hy]; simpl.
  - repeat constructor.
  - destruct (key_lt (key y) (key x)) eqn:E.
    + constructor; auto.
      rewrite <- insert_perm. constructor; auto.
      unfold ascending. now apply key_lt_asym.
    + constructor; [constructor; auto|].
      constructor; [exact E|].
      rewrite Forall_forall in *. intros z Hz. specialize (Hy z Hz).
      unfold ascending in *. eapply key_not_lt_trans; eauto.
Qed.

Lemma stable_sort_sorted l : StronglySorted ascending (stable_sort key l).
Proof.
  induction l; simpl; [constructor | now apply insert_sorted].
Qed.

Lemma insert_filter k x l :
  filter (fun a => key_eqb (key a) k) (insert key x l)
  = filter (fun a => key_eqb (key a) k) (x :: l).
Proof.
  induction l as [|y l IH]; auto.
  simpl insert. destruct (key_lt (key y) (key x)) eqn:E; auto.
  simpl in *. rewrite IH.
  destruct (key_eqb (key x) k) eqn:Ex; auto.
  destruct (key_eqb (key y) k) eqn:Ey; auto.
  apply key_eqb_eq in Ex, Ey. rewrite Ex, Ey, key_lt_irrefl in E. discriminate.
Qed.

Lemma stable_sort_filter k l :
  filter (fun a => key_eqb (key a) k) (stable_sort key l)
  = filter (fun a => key_eqb (key a) k) l.
Proof.
  induction l as [|x l IH]; auto.
  simpl stable_sort. rewrite insert_filter. simpl. now rewrite IH.
Qed.

Lemma filter_rev (p : A -> bool) l : filter p (rev l) = rev (filter p l).
Proof.
  induction l as [|x l IH]; auto.
  simpl. rewrite filter_app, IH. simpl.
  destruct (p x); simpl; auto using app_nil_r.
Qed.

Lemma sorted_snoc (R : A -> A -> Prop) l x :
  StronglySorted R l -> Forall (fun a => R a x) l ->
  StronglySorted R (l ++ [x]).
Proof.
  induction 1 as [|y l Hs IH Hy]; simpl; intros Hx.
  - repeat constructor.
  - inversion Hx; subst. constructor; auto.
    apply Forall_app. split; auto.
Qed.

Lemma rev_sorted l :
  StronglySorted ascending l -> StronglySorted descending (rev l).
Proof.
  induction 1 as [|x l Hs IH Hx]; simpl; [constructor|].
  apply sorted_snoc; auto.
  rewrite Forall_forall in *. intros a Ha. apply in_rev in Ha.
  exact (Hx _ Ha).
Qed.

Lemma sorted_reverse_perm l : Permutation l (sorted key true l).
Proof.
  unfold sorted. rewrite <- Permutation_rev, <- stable_sort_perm.
  apply Permutation_rev.
Qed.

Lemma sorted_reverse_descending l :
  StronglySorted descending (sorted key true l).
Proof. apply rev_sorted, stable_sort_sorted. Qed.

Lemma sorted_reverse_stable k l :
  filter (fun a => key_eqb (key a) k) (sorted key true l)
  = filter (fun a => key_eqb (key a) k) l.
Proof.
  unfold sorted. now rewrite filter_rev, stable_sort_filter, filter_rev, rev_involutive.
Qed.
End SortFacts.

(** ** The result sorter *)

(** C3. [_sort_ads] is a function of its argument only; its result holds
    the same ads (a permutation), is in descending order of the composite
    key (last_seen with null as the empty string, then first_seen
    likewise), the keys being compared as strings, character by character,
    and it is stable: the ads that share a key appear in their input
    order. *)
Theorem sort_ads_descending_stable (ads : list NormalisedAd) :
  Permutation ads (_sort_ads ads)
  /\ StronglySorted
       (fun a b => key_lt (sort_key a) (sort_key b) = false) (_sort_ads ads)
  /\ (forall k,
        filter (fun ad => key_eqb (sort_key ad) k) (_sort_ads ads)
        = filter (fun ad => key_eqb (sort_key ad) k) ads)
  /\ (forall ad,
        sort_key ad
        = (match last_seen ad with Some s => s | None => "" end,
           match first_seen ad with Some s => s | None => "" end))
  /\ (forall a b,
        key_lt a b = true
        <-> String.ltb (fst a) (fst b) = true
            \/ (fst a = fst b /\ String.ltb (snd a) (snd b) = true)).
Proof.
  repeat split.
  - apply sorted_reverse_perm.
  - apply (sorted_reverse_descending sort_key).
  - intros k. apply sorted_reverse_stable.
  - unfold key_lt, String.ltb.
    destruct (String.compare (fst a) (fst b)) eqn:E; auto; try discriminate.
    apply String.compare_eq_iff in E. auto.
  - unfold key_lt, String.ltb. intros [H | [<- H]].
    + destruct (String.compare (fst a) (fst b)); auto; discriminate.
    + now rewrite (cmp_refl _ _ String.compare_antisym).
Qed.

(** An ad that only carries the two timestamps. *)
Definition seen (last first : option string) : NormalisedAd :=
  mkNormalisedAd "meta" None None None None first last None None None.

(** The sorting scenario of the specification, and a tie on last_seen
    broken by first_seen. *)
Example sort_ads_by_recency :
  map last_seen
      (_sort_ads [seen (Some "2024-05-01") None; seen (Some "2024-05-04") None;
                  seen (Some "2024-05-02") None])
  = [Some "2024-05-04"; Some "2024-05-02"; Some "2024-05-01"]
  /\ map first_seen
         (_sort_ads [seen (Some "2024-05-04") (Some "2024-04-01");
                     seen None (Some "2024-04-09");
                     seen (Some "2024-05-04") (Some "2024-04-03")])
     = [Some "2024-04-03"; Some "2024-04-01"; Some "2024-04-09"].
Proof. split; reflexivity. Qed.

(** ** The record normaliser *)

(** [record.get(key)] on a dict. *)
Definition field (entries : list (string * value)) (key : string) : value :=
  match lookup key entries with
  | Some v => v
  | None => PNone
  end.

(** What [response.json()] can return: no tuple anywhere. *)
Fixpoint is_json (v : value) : bool :=
  match v with
  | PTuple _ => false
  | PList items => forallb is_json items
  | PDict entries => forallb (fun kv => is_json (snd kv)) entries
  | _ => true
  end.

Lemma normalise_dict py_str entries :
  _normalise_record py_str (PDict entries)
  = let stop_time := py_or (field entries "ad_delivery_stop_time") PNone in
    let platforms := field entries "publisher_platforms" in
    NormalisedAd_init
      (field entries "page_name")
      (_first_or_none (field entries "ad_creative_link_titles"))
      (_first_or_none (field entries "ad_creative_bodies"))
      (field entries "ad_snapshot_url")
      (field entries "ad_delivery_start_time")
      (py_or stop_time (field entries "ad_creation_time"))
      (if truthy stop_time then PStr "inactive" else PStr "active")
      (if negb (is_none platforms) && negb (is_list platforms)
       then PList [PStr (py_str platforms)] else platforms)
      (field entries "ad_snapshot_url").
Proof. reflexivity. Qed.

Lemma normalise_needs_dict py_str record ad :
  _normalise_record py_str record = Ok ad -> exists entries, record = PDict entries.
Proof. destruct record; try discriminate. eauto. Qed.

Lemma bind_ok {A B : Type} (m : result A) (k : A -> result B) b :
  bind m k = Ok b -> exists a, m = Ok a /\ k a = Ok b.
Proof. destruct m; simpl; [eauto | discriminate]. Qed.

Lemma NormalisedAd_init_ok a t b cu fs ls st ps su ad :
  NormalisedAd_init a t b cu fs ls st ps su = Ok ad ->
  source ad = "meta"
  /\ validate_opt_str a = Ok (advertiser ad)
  /\ validate_opt_str t = Ok (title ad)
  /\ validate_opt_str b = Ok (body ad)
  /\ validate_opt_str cu = Ok (creative_url ad)
  /\ validate_opt_str fs = Ok (first_seen ad)
  /\ validate_opt_str ls = Ok (last_seen ad)
  /\ validate_status st = Ok (status ad)
  /\ validate_opt_list_str ps = Ok (platforms ad)
  /\ validate_opt_str su = Ok (snapshot_url ad).
Proof.
  unfold NormalisedAd_init. intros H.
  repeat (apply bind_ok in H; destruct H as (? & ? & H)).
  inversion H; subst; simpl. repeat split; assumption.
Qed.

Lemma validate_opt_str_ok v o :
  validate_opt_str v = Ok o ->
  (v = PNone /\ o = None) \/ (exists s, v = PStr s /\ o = Some (strip s)).
Proof.
  destruct v; simpl; intros H; try discriminate; inversion H; eauto.
Qed.

Lemma truthy_or_none v : truthy (py_or v PNone) = truthy v.
Proof. unfold py_or. destruct (truthy v) eqn:E; auto. Qed.

(** C5. On a raw field value (a decoded JSON value) [_first_or_none] gives
    the first element of a non-empty list, null for an empty list, a
    string itself, and null for every other shape; title and body are both
    obtained by it from their raw fields, and validated alike. *)
Theorem first_or_none_rule :
  (forall v, is_json v = true ->
     _first_or_none v
     = match v with
       | PList (x :: _) => x
       | PList [] => PNone
       | PStr s => PStr s
       | _ => PNone
       end)
  /\ (forall py_str record ad,
        _normalise_record py_str record = Ok ad ->
        exists titles bodies,
          py_get record "ad_creative_link_titles" = Ok titles
          /\ py_get record "ad_creative_bodies" = Ok bodies
          /\ validate_opt_str (_first_or_none titles) = Ok (title ad)
          /\ validate_opt_str (_first_or_none bodies) = Ok (body ad)).
Proof.
  split.
  - intros v Hv. destruct v as [ | | | | |[|x l]|l|]; simpl in *; auto; discriminate.
  - intros py_str record ad H.
    destruct (normalise_needs_dict _ _ _ H) as [entries ->].
    rewrite normalise_dict in H. apply NormalisedAd_init_ok in H.
    exists (field entries "ad_creative_link_titles"),
           (field entries "ad_creative_bodies").
    repeat split; apply H.
Qed.

Lemma first_or_none_rule_witness :
  _first_or_none (PList [PStr "A"; PStr "B"]) = PStr "A".
Proof.
  exact (proj1 first_or_none_rule (PList [PStr "A"; PStr "B"]) eq_refl).
Defined.

(** The first-or-none scenarios of the specification; a tuple, which no
    decoded JSON holds, is treated as a list. *)
Example first_or_none_scenarios :
  _first_or_none (PList [PStr "A"; PStr "B"]) = PStr "A"
  /\ _first_or_none (PList []) = PNone
  /\ _first_or_none (PStr "A") = PStr "A"
  /\ _first_or_none (PDict []) = PNone
  /\ _first_or_none (PInt 42) = PNone
  /\ _first_or_none (PTuple [PStr "A"; PStr "B"]) = PStr "A".
Proof. repeat split. Qed.

(** C4, as the code has it. Whenever a record is normalised, the status
    is "inactive" exactly when the raw delivery-stop time is truthy
    (neither null nor empty) and "active" otherwise; last_seen is that stop
    time with its surrounding whitespace stripped when it is truthy, and
    otherwise the validated creation time: null when missing or null, the
    stripped string otherwise. *)
Theorem normalise_status_last_seen py_str record ad :
  _normalise_record py_str record = Ok ad ->
  exists stop creation,
    py_get record "ad_delivery_stop_time" = Ok stop
    /\ py_get record "ad_creation_time" = Ok creation
    /\ (status ad = Some inactive <-> truthy stop = true)
    /\ (status ad = Some active <-> truthy stop = false)
    /\ (truthy stop = true ->
        exists s, stop = PStr s /\ last_seen ad = Some (strip s))
    /\ (truthy stop = false ->
        (creation = PNone /\ last_seen ad = None)
        \/ (exists s, creation = PStr s /\ last_seen ad = Some (strip s))).
Proof.
  intros H. destruct (normalise_needs_dict _ _ _ H) as [entries ->].
  rewrite normalise_dict in H. apply NormalisedAd_init_ok in H.
  destruct H as (_ & _ & _ & _ & _ & _ & Hls & Hst & _).
  cbv zeta in Hls, Hst. rewrite truthy_or_none in Hst.
  exists (field entries "ad_delivery_stop_time"),
         (field entries "ad_creation_time").
  set (stop := field entries "ad_delivery_stop_time") in *.
  set (creation := field entries "ad_creation_time") in *.
  split; [reflexivity|]. split; [reflexivity|].
  unfold py_or in Hls.
  destruct (truthy stop) eqn:Et; simpl in Hst; inversion Hst as [Hs].
  - rewrite Et in Hls.
    repeat split; try congruence.
    intros _. apply validate_opt_str_ok in Hls.
    destruct Hls as [[-> _] | Hls]; [discriminate | exact Hls].
  - simpl in Hls.
    repeat split; try congruence.
    intros _. now apply validate_opt_str_ok.
Qed.

(** A record that stopped delivery, for the scenarios below. *)
Definition stopped_record : value :=
  PDict [("page_name", PStr "Page A");
         ("ad_delivery_start_time", PStr "2024-05-01T00:00:00+0000");
         ("ad_delivery_stop_time", PStr "2024-05-04T00:00:00+0000");
         ("ad_creation_time", PStr "2024-05-01T00:00:00+0000")].

Definition stopped_ad : NormalisedAd :=
  mkNormalisedAd "meta" (Some "Page A") None None None
    (Some "2024-05-01T00:00:00+0000") (Some "2024-05-04T00:00:00+0000")
    (Some inactive) None None.

Lemma normalise_status_last_seen_witness :
  _normalise_record (fun _ => "") stopped_record = Ok stopped_ad
  /\ exists stop creation,
       py_get stopped_record "ad_delivery_stop_time" = Ok stop
       /\ py_get stopped_record "ad_creation_time" = Ok creation
       /\ (status stopped_ad = Some inactive <-> truthy stop = true)
       /\ (status stopped_ad = Some active <-> truthy stop = false)
       /\ (truthy stop = true ->
           exists s, stop = PStr s /\ last_seen stopped_ad = Some (strip s))
       /\ (truthy stop = false ->
           (creation = PNone /\ last_seen stopped_ad = None)
           \/ (exists s, creation = PStr s
                         /\ last_seen stopped_ad = Some (strip s))).
Proof.
  split; [reflexivity|].
  apply (normalise_status_last_seen (fun _ => "") stopped_record stopped_ad).
  reflexivity.
Defined.

(** C4 as the specification words it fails on a stop time that carries
    surrounding whitespace: the record is inactive, yet last_seen is not
    the raw stop time. *)
Lemma last_seen_not_raw_stop_time :
  exists ad,
    (forall py_str,
       _normalise_record py_str
         (PDict [("ad_delivery_stop_time", PStr " 2024-05-04T00:00:00+0000")])
       = Ok ad)
    /\ status ad = Some inactive
    /\ last_seen ad = Some "2024-05-04T00:00:00+0000"
    /\ last_seen ad <> Some " 2024-05-04T00:00:00+0000".
Proof.
  eexists. split; [intros; reflexivity|]. simpl.
  repeat split. discriminate.
Qed.

(** *** Which records the normaliser accepts *)

Definition str_shaped (v : value) : bool :=
  match v with PStr _ => true | _ => false end.





Lemma mapM_validate_str_cases items :
  (exists l, mapM validate_str items = Ok l /\ forallb str_shaped items = true)
  \/ (mapM validate_str items = Raise ValidationError
      /\ forallb str_shaped items = false).
Proof.
  induction items as [|v items IH]; simpl; eauto.
  destruct v; simpl; auto.
  destruct IH as [(l & -> & ->) | [-> ->]]; simpl; eauto.
Qed.







(** ** Pagination *)

(** The records a page carries: the elements of the [data] member of its
    body, none when the member is missing. *)
Definition page_data (r : Response) : result (list value) :=
  match json r with
  | None => Raise ValueError
  | Some payload =>
      data <- py_get_default payload "data" (PList []) ;; py_iter data
  end.

(** The [next] member of the [paging] object of a page, null when the
    object or the member is missing. *)
Definition page_next (r : Response) : result value :=
  match json r with
  | None => Raise ValueError
  | Some payload =>
      paging <- py_get_default payload "paging" (PDict []) ;;
      py_get paging "next"
  end.

(** A page after which the loop goes on: a 200 response whose records keep
    the accumulated count below the limit and whose cursor is a non-empty
    string. The result is the accumulator and the cursor it leaves. *)
Definition continuing (limit : Z) (raw : list value) (r : Response)
    : option (list value * value) :=
  if (status_code r =? 200)%Z then
    match page_data r, page_next r with
    | Ok items, Ok (PStr u) =>
        if (Z.of_nat (List.length (raw ++ items)) <? limit)%Z
           && negb (String.eqb u "")
        then Some (raw ++ items, PStr u)
        else None
    | _, _ => None
    end
  else None.

(** The loop state after a run of continuing pages. *)
Fixpoint advance (limit : Z) (raw : list value) (next : value)
    (pages : list Response) : option (list value * value) :=
  match pages with
  | [] => Some (raw, next)
  | r :: rest =>
      match continuing limit raw r with
      | Some (raw', next') => advance limit raw' next' rest
      | None => None
      end
  end.

(** The records of the responses among some outcomes, in arrival order. *)
Definition arrived (outcomes : list http_outcome) : list value :=
  flat_map
    (fun o =>
       match o with
       | Responded r =>
           match page_data r with Ok items => items | Raise _ => [] end
       | Failed _ _ => []
       end)
    outcomes.

Lemma handle_response_at_limit q raw r items :
  status_code r = 200%Z ->
  page_data r = Ok items ->
  (limit q <= Z.of_nat (List.length (raw ++ items)))%Z ->
  handle_response q raw r = Ok (Break (raw ++ items)).
Proof.
  unfold handle_response, page_data. intros -> Hd Hl. simpl.
  destruct (json r) as [payload|]; [|discriminate].
  destruct (py_get_default payload "data" (PList [])) as [data|]; [|discriminate].
  simpl in *. rewrite Hd. simpl.
  destruct (Z.geb_spec (Z.of_nat (List.length (raw ++ items))) (limit q)); [reflexivity | lia].
Qed.

Lemma handle_response_below_limit q raw r items next :
  status_code r = 200%Z ->
  page_data r = Ok items ->
  (Z.of_nat (List.length (raw ++ items)) < limit q)%Z ->
  page_next r = Ok next ->
  handle_response q raw r
  = if truthy next then Ok (Continue (raw ++ items) next)
    else Ok (Break (raw ++ items)).
Proof.
  unfold handle_response, page_data, page_next. intros -> Hd Hl Hn. simpl.
  destruct (json r) as [payload|]; [|discriminate].
  destruct (py_get_default payload "data" (PList [])) as [data|]; [|discriminate].
  simpl in *. rewrite Hd. simpl.
  destruct (Z.geb_spec (Z.of_nat (List.length (raw ++ items))) (limit q)); [lia|].
  destruct (py_get_default payload "paging" (PDict [])) as [paging|];
    [|discriminate].
  simpl in *. rewrite Hn. simpl. destruct (truthy next); reflexivity.
Qed.

Lemma continuing_handled q raw r raw' next :
  continuing (limit q) raw r = Some (raw', next) ->
  handle_response q raw r = Ok (Continue raw' next)
  /\ (exists u, next = PStr u /\ truthy next = true)
  /\ (exists items, page_data r = Ok items /\ raw' = raw ++ items).
Proof.
  unfold continuing. destruct (Z.eqb_spec (status_code r) 200); [|discriminate].
  destruct (page_data r) as [items|] eqn:Hd; [|discriminate].
  destruct (page_next r) as [[]|] eqn:Hn; try discriminate.
  destruct (Z.ltb_spec (Z.of_nat (List.length (raw ++ items))) (limit q));
    [|discriminate].
  destruct (String.eqb s "") eqn:Es; [discriminate|].
  simpl. intros Heq. inversion Heq; subst.
  rewrite (handle_response_below_limit q raw r items (PStr s)); auto.
  simpl. rewrite Es. simpl. repeat split; eauto.
Qed.

(** A loop state whose cursor, if any, is a string. *)
Definition cursor_ok (next : value) : Prop :=
  next = PNone \/ exists u, next = PStr u /\ truthy next = true.

Lemma next_request_ok params next :
  cursor_ok next -> exists req, next_request params next = Ok req.
Proof.
  unfold next_request. intros [-> | (u & -> & ->)]; simpl; eauto.
Qed.

Lemma advance_cursor_ok limit pages :
  forall raw next raw' next',
    cursor_ok next ->
    advance limit raw next pages = Some (raw', next') -> cursor_ok next'.
Proof.
  induction pages as [|r pages IH]; simpl; intros raw next raw' next' Hc H.
  - inversion H; subst. exact Hc.
  - destruct (continuing limit raw r) as [[raw1 next1]|] eqn:E; [|discriminate].
    eapply IH; [|exact H].
    unfold continuing in E.
    destruct (status_code r =? 200)%Z; [|discriminate].
    destruct (page_data r); [|discriminate].
    destruct (page_next r) as [[]|]; try discriminate.
    destruct (_ && _) eqn:Eb; [|discriminate].
    inversion E; subst. right. exists s. split; auto.
    apply andb_true_iff in Eb. simpl. apply Eb.
Qed.

(** The loop runs through continuing pages: it issues one request for
    each and reaches the state [advance] gives. *)
Lemma fetch_loop_advance q params pages :
  forall rest raw next reqs n raw' next',
    cursor_ok next ->
    advance (limit q) raw next pages = Some (raw', next') ->
    exists reqs',
      List.length reqs' = (List.length reqs + List.length pages)%nat
      /\ fetch_loop q params (map Responded pages ++ rest) raw next reqs n
         = fetch_loop q params rest raw' next' reqs' (n + List.length pages).
Proof.
  induction pages as [|r pages IH]; simpl; intros rest raw next reqs n raw' next' Hc H.
  - inversion H; subst. exists reqs. rewrite !Nat.add_0_r. auto.
  - destruct (continuing (limit q) raw r) as [[raw1 next1]|] eqn:E; [|discriminate].
    destruct (continuing_handled _ _ _ _ _ E) as (Hh & Hn & _).
    destruct (next_request_ok params next Hc) as [req Hreq].
    destruct (IH rest raw1 next1 (reqs ++ [req]) (S n) raw' next') as (reqs' & Hlen & Heq);
      [right; exact Hn | exact H |].
    exists reqs'. split.
    + rewrite Hlen, length_app. simpl. lia.
    + destruct pages; simpl; rewrite Hreq, Hh; simpl in Heq; rewrite Heq;
        f_equal; lia.
Qed.

Lemma fetch_loop_responded q params r rest raw next reqs n req :
  next_request params next = Ok req ->
  fetch_loop q params (Responded r :: rest) raw next reqs n
  = match handle_response q raw r with
    | Raise e => Some (mkLoopEnd (reqs ++ [req]) (S n) (Raise e))
    | Ok (Break raw') => Some (mkLoopEnd (reqs ++ [req]) (S n) (Ok raw'))
    | Ok (Continue raw' next') =>
        fetch_loop q params rest raw' next' (reqs ++ [req]) (S n)
    end.
Proof. intros H. simpl. rewrite H. reflexivity. Qed.

Lemma fetch_loop_failed q params kind msg rest raw next reqs n req :
  next_request params next = Ok req ->
  fetch_loop q params (Failed kind msg :: rest) raw next reqs n
  = Some (mkLoopEnd (reqs ++ [req]) n (Raise (HttpxError kind msg))).
Proof. intros H. simpl. rewrite H. reflexivity. Qed.

Lemma handle_response_ok q raw r c :
  handle_response q raw r = Ok c ->
  exists items,
    page_data r = Ok items
    /\ (c = Break (raw ++ items) \/ exists next, c = Continue (raw ++ items) next).
Proof.
  unfold handle_response, page_data, raise_api_error.
  destruct (negb (status_code r =? 200)%Z).
  - destruct (py_get_default _ "error" _); simpl; [|discriminate].
    destruct (py_get _ "code"); simpl; [|discriminate].
    destruct (py_get_default _ "message" _); simpl; discriminate.
  - destruct (json r) as [payload|]; [|discriminate].
    destruct (py_get_default payload "data" _) as [data|]; simpl; [|discriminate].
    destruct (py_iter data) as [items|]; simpl; [|discriminate].
    intros H. exists items. split; [reflexivity|].
    destruct (_ >=? _)%Z.
    + inversion H. auto.
    + destruct (py_get_default payload "paging" _) as [paging|]; simpl in H;
        [|discriminate].
      destruct (py_get paging "next") as [next|]; simpl in H; [|discriminate].
      destruct (negb (truthy next)); inversion H; eauto.
Qed.

(** A loop that ends normally has accumulated, in arrival order, the
    records of the pages it received, one page for each request. *)
Lemma fetch_loop_ok_arrived q params upstream :
  forall raw next reqs n e raw_end,
    fetch_loop q params upstream raw next reqs n = Some e ->
    ended e = Ok raw_end ->
    exists k,
      page_count e = (n + k)%nat
      /\ List.length (requests e) = (List.length reqs + k)%nat
      /\ raw_end = raw ++ arrived (firstn k upstream).
Proof.
  induction upstream as [|o upstream IH]; intros raw next reqs n e raw_end H He.
  - simpl in H. destruct (next_request params next); inversion H; subst.
    discriminate.
  - destruct (next_request params next) as [req|] eqn:Hreq.
    2:{ simpl in H. rewrite Hreq in H. inversion H; subst. discriminate. }
    destruct o as [r | kind msg].
    2:{ rewrite (fetch_loop_failed _ _ _ _ _ _ _ _ _ _ Hreq) in H.
        inversion H; subst. discriminate. }
    rewrite (fetch_loop_responded _ _ _ _ _ _ _ _ _ Hreq) in H.
    destruct (handle_response q raw r) as [c|] eqn:Hh.
    2:{ inversion H; subst. discriminate. }
    destruct (handle_response_ok _ _ _ _ Hh) as (items & Hd & [-> | [next' ->]]).
    + inversion H; subst. simpl in He. inversion He; subst.
      exists 1%nat. simpl. rewrite Hd, app_nil_r, length_app. simpl.
      repeat split; lia.
    + destruct (IH _ _ _ _ _ _ H He) as (k & Hp & Hl & Hr).
      exists (S k). simpl. rewrite Hd, Hp, Hl, Hr, length_app, <- app_assoc.
      simpl. repeat split; lia.
Qed.

Lemma py_slice_to_firstn {A : Type} (n : Z) (l : list A) :
  (0 <= n)%Z ->
  py_slice_to n l = firstn (Nat.min (Z.to_nat n) (List.length l)) l.
Proof.
  intros Hn. unfold py_slice_to.
  destruct (Z.leb_spec 0 n); [|lia].
  destruct (Nat.le_gt_cases (Z.to_nat n) (List.length l)).
  - now rewrite Nat.min_l.
  - rewrite Nat.min_r by lia. rewrite firstn_all. apply firstn_all2. lia.
Qed.

Lemma mapM_Forall2 {A B : Type} (f : A -> result B) l :
  forall l', mapM f l = Ok l' -> Forall2 (fun a b => f a = Ok b) l l'.
Proof.
  induction l as [|a l IH]; simpl; intros l' H.
  - inversion H. constructor.
  - apply bind_ok in H. destruct H as (b & Hb & H).
    apply bind_ok in H. destruct H as (bs & Hbs & H).
    inversion H; subst. constructor; auto.
Qed.

Lemma finish_ok py_str q raw ads :
  (0 <= limit q)%Z ->
  finish py_str q raw = Ok ads ->
  exists normalised,
    Forall2 (fun record ad => _normalise_record py_str record = Ok ad)
      (firstn (Nat.min (Z.to_nat (limit q)) (List.length raw)) raw) normalised
    /\ ads = _sort_ads normalised.
Proof.
  intros Hl. unfold finish. intros H.
  apply bind_ok in H. destruct H as (normalised & Hm & H).
  inversion H; subst. exists normalised. split; [|reflexivity].
  apply mapM_Forall2. rewrite <- Hm. f_equal.
  destruct raw as [|x raw]; simpl truthy; cbv iota.
  - now rewrite Nat.min_0_r.
  - symmetry. now apply py_slice_to_firstn.
Qed.

Lemma fetch_ads_of_loop py_str q tok upstream e :
  fetch_loop q (build_params q tok) upstream [] PNone [] 0 = Some e ->
  fetch_ads py_str q tok upstream
  = Some (mkRun (requests e)
                (mkLog (industry q) (country q) (page_count e))
                (raw_records <- except_timeout (ended e) ;;
                 finish py_str q raw_records)).
Proof. unfold fetch_ads. intros ->. reflexivity. Qed.

Lemma cursor_ok_none : cursor_ok PNone.
Proof. left. reflexivity. Qed.

(** The request that follows a run of continuing pages is answered by
    [o]: the state in which the loop meets [o]. *)
Lemma fetch_loop_after_pages q tok pages o rest raw next :
  advance (limit q) [] PNone pages = Some (raw, next) ->
  exists reqs req,
    List.length reqs = List.length pages
    /\ next_request (build_params q tok) next = Ok req
    /\ fetch_loop q (build_params q tok) (map Responded pages ++ o :: rest)
         [] PNone [] 0
       = fetch_loop q (build_params q tok) (o :: rest) raw next reqs
           (List.length pages).
Proof.
  intros Ha.
  destruct (fetch_loop_advance q (build_params q tok) pages (o :: rest)
              [] PNone [] 0%nat raw next cursor_ok_none Ha) as (reqs & Hlen & Heq).
  destruct (next_request_ok (build_params q tok) next
              (advance_cursor_ok _ _ _ _ _ _ cursor_ok_none Ha)) as [req Hreq].
  exists reqs, req. auto.
Qed.

(** *** Fixtures: the two pages of the pagination test *)

Definition raw_ad (name title_ body_ url start stop creation : value) : value :=
  PDict [("page_name", name);
         ("ad_creative_link_titles", PList [title_]);
         ("ad_creative_bodies", PList [body_]);
         ("ad_snapshot_url", url);
         ("ad_delivery_start_time", start);
         ("ad_delivery_stop_time", stop);
         ("ad_creation_time", creation)].

Definition record_a : value :=
  raw_ad (PStr "Page A") (PStr "Title A") (PStr "Body A")
    (PStr "https://example.com/a") (PStr "2024-05-01T00:00:00+0000")
    (PStr "2024-05-04T00:00:00+0000") (PStr "2024-05-01T00:00:00+0000").

Definition record_b : value :=
  raw_ad (PStr "Page B") (PStr "Title B") (PStr "Body B")
    (PStr "https://example.com/b") (PStr "2024-05-02T00:00:00+0000")
    PNone (PStr "2024-05-02T00:00:00+0000").

Definition record_c : value :=
  raw_ad (PStr "Page C") (PStr "Title C") (PStr "Body C")
    (PStr "https://example.com/c") (PStr "2024-05-03T00:00:00+0000")
    (PStr "2024-05-05T00:00:00+0000") (PStr "2024-05-03T00:00:00+0000").

Definition record_d : value :=
  raw_ad (PStr "Page D") (PStr "Title D") (PStr "Body D")
    (PStr "https://example.com/d") (PStr "2024-05-04T00:00:00+0000")
    PNone (PStr "2024-05-04T00:00:00+0000").

Definition next_page_url : string :=
  "https://graph.facebook.com/v23.0/ads_archive?after=token".

Definition first_page : Response :=
  mkResponse 200 ""
    (Some (PDict [("data", PList [record_a; record_b]);
                  ("paging", PDict [("next", PStr next_page_url)])])).

Definition second_page : Response :=
  mkResponse 200 ""
    (Some (PDict [("data", PList [record_c; record_d]);
                  ("paging", PDict [])])).

(** A page like [second_page] that announces a further page. *)
Definition second_page_with_cursor : Response :=
  mkResponse 200 ""
    (Some (PDict [("data", PList [record_c; record_d]);
                  ("paging", PDict [("next", PStr next_page_url)])])).

Definition tech_query : AdsQuery := mkAdsQuery "tech" "GB" 3.

(** A [str] for the scenarios, none of which wraps platforms. *)
Definition str_of (v : value) : string :=
  match v with PStr s => s | _ => "" end.

(** What the tests read of a run: the pages logged, and the number, the
    status and the title of the ads returned. *)
Definition summary (r : option run)
    : option (nat * result (list (string * option Status * option string))) :=
  option_map
    (fun r =>
       (log_pages (logged r),
        ads <- outcome r ;;
        Ok (map (fun ad => (source ad, status ad, title ad)) ads)))
    r.

(** The pagination test of the repository: two pages of two records and a
    limit of 3 give three ads, with the titles C, A, B. *)
Example pagination_test :
  summary (fetch_ads str_of tech_query "test-token"
             [Responded first_page; Responded second_page])
  = Some (2%nat,
          Ok [("meta", Some inactive, Some "Title C");
              ("meta", Some inactive, Some "Title A");
              ("meta", Some active, Some "Title B")]).
Proof. reflexivity. Qed.

(** The success test of the repository: one page, one record whose stop
    time is null. *)
Example success_test :
  summary
    (fetch_ads str_of (mkAdsQuery "finance" "GB" 50) "test-token"
       [Responded
          (mkResponse 200 ""
             (Some (PDict
                [("data",
                  PList [PDict [("page_name", PStr "Acme Corp");
                                ("ad_creative_link_titles", PList [PStr "Big Sale"]);
                                ("ad_creative_bodies", PList [PStr "Buy now"]);
                                ("ad_snapshot_url", PStr "https://example.com/snapshot");
                                ("ad_delivery_start_time", PStr "2024-05-01T00:00:00+0000");
                                ("ad_delivery_stop_time", PNone);
                                ("ad_creation_time", PStr "2024-05-01T00:00:00+0000");
                                ("publisher_platforms", PList [PStr "facebook"])]]);
                 ("paging", PDict [])])))])
  = Some (1%nat, Ok [("meta", Some active, Some "Big Sale")]).
Proof. reflexivity. Qed.

(** C1. After any run of pages that keep the loop going, [fetch_ads]
    issues its last request for the first page that brings the accumulated
    count to the limit, whatever cursor that page carries, or that carries
    no cursor, whatever the count: later outcomes of the upstream are never
    asked for, and the records accumulated so far are what is normalised
    and sorted. An empty first page without a cursor gives the empty
    result. *)
Theorem fetch_stops_at_limit_or_last_page
    py_str q tok pages r rest raw next items :
  advance (limit q) [] PNone pages = Some (raw, next) ->
  status_code r = 200%Z ->
  page_data r = Ok items ->
  (limit q <= Z.of_nat (List.length (raw ++ items)))%Z
  \/ (exists cursor, page_next r = Ok cursor /\ truthy cursor = false) ->
  exists run,
    fetch_ads py_str q tok (map Responded pages ++ Responded r :: rest) = Some run
    /\ List.length (issued run) = S (List.length pages)
    /\ log_pages (logged run) = S (List.length pages)
    /\ outcome run = finish py_str q (raw ++ items)
    /\ (pages = [] -> items = [] -> outcome run = Ok []).
Proof.
  intros Ha Hs Hd Hstop.
  destruct (fetch_loop_after_pages q tok pages (Responded r) rest raw next Ha)
    as (reqs & req & Hlen & Hreq & Heq).
  assert (Hh : handle_response q raw r = Ok (Break (raw ++ items))).
  { destruct (Z_le_gt_dec (limit q) (Z.of_nat (List.length (raw ++ items))))
      as [Hle | Hgt].
    - now apply handle_response_at_limit.
    - destruct Hstop as [Hle | (cursor & Hn & Ht)]; [lia|].
      rewrite (handle_response_below_limit q raw r items cursor); auto; [|lia].
      now rewrite Ht. }
  rewrite (fetch_loop_responded _ _ _ _ _ _ _ _ _ Hreq), Hh in Heq.
  rewrite (fetch_ads_of_loop _ _ _ _ _ Heq). eexists. split; [reflexivity|].
  simpl. rewrite length_app, Hlen. simpl.
  repeat split; try lia.
  intros -> ->. simpl in Ha. inversion Ha; subst. reflexivity.
Qed.

Lemma fetch_stops_at_limit_or_last_page_witness :
  exists run,
    fetch_ads str_of tech_query "test-token"
      (map Responded [first_page]
       ++ Responded second_page_with_cursor :: [Responded second_page])
    = Some run
    /\ List.length (issued run) = 2%nat
    /\ log_pages (logged run) = 2%nat
    /\ outcome run
       = finish str_of tech_query
           ([record_a; record_b] ++ [record_c; record_d])
    /\ ([first_page] = [] -> [record_c; record_d] = [] -> outcome run = Ok []).
Proof.
  apply (fetch_stops_at_limit_or_last_page str_of tech_query "test-token"
           [first_page] second_page_with_cursor [Responded second_page]
           [record_a; record_b] (PStr next_page_url) [record_c; record_d]).
  - reflexivity.
  - reflexivity.
  - reflexivity.
  - left. simpl. lia.
Defined.

(** C2. A fetch that returns has normalised, one by one and in arrival
    order, exactly the first min(limit, received) of the records received
    from the pages it requested, and returns the sort of those ads: the
    records beyond the limit are dropped before any is normalised or
    compared. *)
Theorem fetch_truncates_before_sorting py_str q tok upstream run ads :
  AdsQuery_valid q = true ->
  fetch_ads py_str q tok upstream = Some run ->
  outcome run = Ok ads ->
  let received := arrived (firstn (log_pages (logged run)) upstream) in
  exists normalised,
    Forall2 (fun record ad => _normalise_record py_str record = Ok ad)
      (firstn (Nat.min (Z.to_nat (limit q)) (List.length received)) received)
      normalised
    /\ ads = _sort_ads normalised.
Proof.
  intros Hq Hf Ho received. subst received.
  unfold fetch_ads in Hf.
  destruct (fetch_loop q (build_params q tok) upstream [] PNone [] 0)
    as [e|] eqn:He; [|discriminate].
  inversion Hf; subst. simpl in *.
  apply bind_ok in Ho. destruct Ho as (raw & Hraw & Hfin).
  assert (Hend : ended e = Ok raw).
  { destruct (ended e) as [|[]]; simpl in Hraw; try discriminate; auto.
    destruct (is_timeout kind); discriminate. }
  destruct (fetch_loop_ok_arrived _ _ _ _ _ _ _ _ _ He Hend) as (k & Hp & _ & Hr).
  simpl in Hp, Hr. rewrite Hp, <- Hr.
  apply finish_ok; auto.
  unfold AdsQuery_valid in Hq. rewrite !andb_true_iff in Hq.
  destruct Hq as [[_ H1] _]. apply Z.leb_le in H1. lia.
Qed.

Definition tech_ads : list NormalisedAd :=
  match mapM (_normalise_record str_of) [record_c; record_a; record_b] with
  | Ok ads => ads
  | Raise _ => []
  end.

Lemma fetch_truncates_before_sorting_witness :
  exists normalised,
    Forall2 (fun record ad => _normalise_record str_of record = Ok ad)
      (firstn (Nat.min 3 4) [record_a; record_b; record_c; record_d])
      normalised
    /\ tech_ads = _sort_ads normalised.
Proof.
  apply (fetch_truncates_before_sorting str_of tech_query "test-token"
           [Responded first_page; Responded second_page]
           (mkRun [GetParams BASE_URL (build_params tech_query "test-token");
                   GetUrl next_page_url]
                  (mkLog "tech" "GB" 2) (Ok tech_ads)) tech_ads).
  - reflexivity.
  - reflexivity.
  - reflexivity.
Defined.

(** The fourth record is dropped although it would sort first. *)
Example late_record_is_dropped :
  let newest :=
    raw_ad (PStr "Page E") (PStr "Title E") (PStr "Body E")
      (PStr "https://example.com/e") (PStr "2024-06-01T00:00:00+0000")
      (PStr "2024-06-02T00:00:00+0000") (PStr "2024-06-01T00:00:00+0000") in
  let last_page :=
    mkResponse 200 ""
      (Some (PDict [("data", PList [record_c; newest]); ("paging", PDict [])])) in
  option_map
    (fun r => match outcome r with Ok ads => map title ads | Raise _ => [] end)
    (fetch_ads str_of tech_query "test-token"
       [Responded first_page; Responded last_page])
  = Some [Some "Title C"; Some "Title A"; Some "Title B"]
  /\ option_map (fun ad => title ad)
       (match _normalise_record str_of newest with
        | Ok ad => hd_error (_sort_ads (ad :: tech_ads))
        | Raise _ => None
        end)
     = Some (Some "Title E").
Proof. split; reflexivity. Qed.

(** ** Failures *)

(** The provider error object of a response, as lines 142-146 obtain it:
    the default one when the body does not decode, the empty one when the
    decoded object has no [error] member, the member itself when it is an
    object. Any other body has none. *)
Definition error_object (r : Response) : option (list (string * value)) :=
  match json r with
  | None => Some [("message", PStr (text r))]
  | Some (PDict entries) =>
      match lookup "error" entries with
      | None => Some []
      | Some (PDict error) => Some error
      | Some _ => None
      end
  | Some _ => None
  end.

(** [error.get("message", "Meta API error")]. *)
Definition error_message (error : list (string * value)) : value :=
  match lookup "message" error with
  | Some m => m
  | None => PStr "Meta API error"
  end.

Lemma handle_response_error q raw r error :
  status_code r <> 200%Z ->
  error_object r = Some error ->
  handle_response q raw r
  = Raise (MetaAPIError (status_code r) (field error "code") (error_message error)).
Proof.
  intros Hs He. unfold handle_response.
  destruct (Z.eqb_spec (status_code r) 200); [contradiction|]. simpl.
  unfold raise_api_error, error_object in *.
  destruct (json r) as [[]|]; try discriminate.
  - simpl. destruct (lookup "error" entries) as [[]|]; try discriminate;
      inversion He; subst; reflexivity.
  - inversion He; subst. reflexivity.
Qed.

(** X19. A response whose status is not 200, on any page, ends the
    fetch at once with the upstream error that carries the status code, the
    code of the provider error object (null when it has none) and its
    message ("Meta API error" when it has none), provided the body does not
    decode or decodes to an object whose [error] member is missing or an
    object. A body that does not decode gives a null code and the raw text
    as the message. *)
Theorem upstream_error_on_bad_status
    py_str q tok pages r rest raw next error :
  advance (limit q) [] PNone pages = Some (raw, next) ->
  status_code r <> 200%Z ->
  error_object r = Some error ->
  exists run,
    fetch_ads py_str q tok (map Responded pages ++ Responded r :: rest) = Some run
    /\ outcome run
       = Raise (MetaAPIError (status_code r) (field error "code")
                  (error_message error))
    /\ (lookup "message" error = None ->
        outcome run
        = Raise (MetaAPIError (status_code r) (field error "code")
                   (PStr "Meta API error")))
    /\ (json r = None ->
        outcome run = Raise (MetaAPIError (status_code r) PNone (PStr (text r))))
    /\ List.length (issued run) = S (List.length pages).
Proof.
  intros Ha Hs He.
  destruct (fetch_loop_after_pages q tok pages (Responded r) rest raw next Ha)
    as (reqs & req & Hlen & Hreq & Heq).
  rewrite (fetch_loop_responded _ _ _ _ _ _ _ _ _ Hreq),
    (handle_response_error q raw r error Hs He) in Heq.
  rewrite (fetch_ads_of_loop _ _ _ _ _ Heq). eexists. split; [reflexivity|].
  simpl. rewrite length_app, Hlen. simpl.
  repeat split; try lia.
  - unfold error_message. now intros ->.
  - intros Hj. unfold error_object in He. rewrite Hj in He.
    inversion He; subst. reflexivity.
Qed.

Definition token_expired : Response :=
  mkResponse 400 ""
    (Some (PDict [("error", PDict [("code", PInt 190);
                                   ("message", PStr "Token expired")])])).

Lemma upstream_error_on_bad_status_witness :
  exists run,
    fetch_ads str_of tech_query "test-token"
      (map Responded [] ++ Responded token_expired :: []) = Some run
    /\ outcome run = Raise (MetaAPIError 400 (PInt 190) (PStr "Token expired"))
    /\ (lookup "message"
          [("code", PInt 190); ("message", PStr "Token expired")] = None ->
        outcome run = Raise (MetaAPIError 400 (PInt 190) (PStr "Meta API error")))
    /\ (json token_expired = None ->
        outcome run = Raise (MetaAPIError 400 PNone (PStr "")))
    /\ List.length (issued run) = 1%nat.
Proof.
  apply (upstream_error_on_bad_status str_of tech_query "test-token"
           [] token_expired [] [] PNone
           [("code", PInt 190); ("message", PStr "Token expired")]).
  - reflexivity.
  - discriminate.
  - reflexivity.
Defined.

(** An error response of a gateway whose [error] member is a string. *)
Definition bad_gateway : Response :=
  mkResponse 502 "" (Some (PDict [("error", PStr "Bad Gateway")])).

(** The defaults of the error branch. *)
Example upstream_error_defaults :
  option_map outcome
    (fetch_ads str_of tech_query "test-token"
       [Responded (mkResponse 503 "<html>busy</html>" None)])
  = Some (Raise (MetaAPIError 503 PNone (PStr "<html>busy</html>")))
  /\ option_map outcome
       (fetch_ads str_of tech_query "test-token"
          [Responded (mkResponse 500 "{}" (Some (PDict [])))])
     = Some (Raise (MetaAPIError 500 PNone (PStr "Meta API error"))).
Proof. split; reflexivity. Qed.

(** C8. The code at the failing input, a 502 response whose body is the
    object that holds the string "Bad Gateway" as its [error] member: line
    147 calls [get] on the string, and the fetch raises an attribute error
    where every other response of a status other than 200 raises the
    upstream error. *)
Lemma bad_status_without_upstream_error :
  exists run,
    (forall py_str,
       fetch_ads py_str tech_query "test-token"
         [Responded
            bad_gateway]
       = Some run)
    /\ outcome run = Raise AttributeError.
Proof.
  exists (mkRun [GetParams BASE_URL (build_params tech_query "test-token")]
            (mkLog "tech" "GB" 1) (Raise AttributeError)).
  split; [intros; reflexivity | reflexivity].
Qed.

(** C9. A timeout of any of the five kinds on any page ends the fetch
    with the timeout error that carries the description of the transport
    exception: what the earlier pages delivered is not returned, and no
    request follows the one that timed out. *)
Theorem timeout_aborts_fetch py_str q tok pages kind msg rest raw next :
  advance (limit q) [] PNone pages = Some (raw, next) ->
  In kind [ConnectTimeout; ReadTimeout; WriteTimeout; PoolTimeout;
           TimeoutException] ->
  exists run,
    fetch_ads py_str q tok (map Responded pages ++ Failed kind msg :: rest)
    = Some run
    /\ outcome run = Raise (MetaTimeoutError msg)
    /\ List.length (issued run) = S (List.length pages)
    /\ log_pages (logged run) = List.length pages.
Proof.
  intros Ha Hk.
  destruct (fetch_loop_after_pages q tok pages (Failed kind msg) rest raw next Ha)
    as (reqs & req & Hlen & Hreq & Heq).
  rewrite (fetch_loop_failed _ _ _ _ _ _ _ _ _ _ Hreq) in Heq.
  rewrite (fetch_ads_of_loop _ _ _ _ _ Heq). eexists. split; [reflexivity|].
  simpl. rewrite length_app, Hlen. simpl.
  assert (Ht : is_timeout kind = true).
  { simpl in Hk. repeat destruct Hk as [<- | Hk]; try reflexivity. contradiction. }
  rewrite Ht. simpl. repeat split; lia.
Qed.

Lemma timeout_aborts_fetch_witness :
  exists run,
    fetch_ads str_of tech_query "test-token"
      (map Responded [first_page] ++ Failed ReadTimeout "Timeout" :: [])
    = Some run
    /\ outcome run = Raise (MetaTimeoutError "Timeout")
    /\ List.length (issued run) = 2%nat
    /\ log_pages (logged run) = 1%nat.
Proof.
  apply (timeout_aborts_fetch str_of tech_query "test-token" [first_page]
           ReadTimeout "Timeout" [] [record_a; record_b] (PStr next_page_url)).
  - reflexivity.
  - simpl. auto.
Defined.

(** A transport failure that is no timeout is not turned into the timeout
    error. *)
Example transport_error_propagates :
  option_map outcome
    (fetch_ads str_of tech_query "test-token" [Failed TransportError "refused"])
  = Some (Raise (HttpxError TransportError "refused")).
Proof. reflexivity. Qed.

(** Whatever a response of a status other than 200 raises does not depend
    on the records accumulated, and the [except] clause lets it through. *)
Lemma handle_response_bad_status q r :
  status_code r <> 200%Z ->
  exists e,
    (forall raw, handle_response q raw r = Raise e)
    /\ except_timeout (@Raise (list value) e) = Raise e.
Proof.
  intros Hs. unfold handle_response.
  destruct (Z.eqb_spec (status_code r) 200) as [|_]; [contradiction|]. simpl.
  unfold raise_api_error.
  destruct (json r) as [[| | | | | | |entries]|]; simpl;
    try (exists AttributeError; split; reflexivity).
  - destruct (lookup "error" entries) as [[]|]; simpl;
      eexists; split; reflexivity.
  - eexists; split; reflexivity.
Qed.

(** X20. A response whose status is not 200 that follows one or more
    continuing pages makes the fetch raise, whatever its body: no record of
    the earlier pages is returned, and no request follows. The exception is
    the one the same response raises as a first page; it is the upstream
    error whenever the response has a provider error object. *)
Theorem bad_status_discards_earlier_pages
    py_str q tok pages r rest raw next :
  pages <> [] ->
  advance (limit q) [] PNone pages = Some (raw, next) ->
  status_code r <> 200%Z ->
  exists run e,
    fetch_ads py_str q tok (map Responded pages ++ Responded r :: rest) = Some run
    /\ outcome run = Raise e
    /\ List.length (issued run) = S (List.length pages)
    /\ option_map outcome (fetch_ads py_str q tok [Responded r]) = Some (Raise e)
    /\ (forall error,
          error_object r = Some error ->
          e = MetaAPIError (status_code r) (field error "code")
                (error_message error)).
Proof.
  intros _ Ha Hs.
  destruct (fetch_loop_after_pages q tok pages (Responded r) rest raw next Ha)
    as (reqs & req & Hlen & Hreq & Heq).
  rewrite (fetch_loop_responded _ _ _ _ _ _ _ _ _ Hreq) in Heq.
  destruct (handle_response_bad_status q r Hs) as (e & Hh & He).
  rewrite Hh in Heq.
  rewrite (fetch_ads_of_loop _ _ _ _ _ Heq).
  cbn [ended requests page_count]. rewrite He. cbn [bind].
  exists (mkRun (reqs ++ [req])
            (mkLog (industry q) (country q) (S (List.length pages))) (Raise e)), e.
  cbn [issued outcome logged log_pages]. rewrite length_app, Hlen.
  repeat split; try (simpl; lia).
  - unfold fetch_ads. cbn [fetch_loop next_request truthy].
    rewrite Hh. cbn [ended]. now rewrite He.
  - intros error Herr.
    specialize (Hh []).
    rewrite (handle_response_error q [] r error Hs Herr) in Hh. congruence.
Qed.

Lemma bad_status_discards_earlier_pages_witness :
  exists run e,
    fetch_ads str_of tech_query "test-token"
      (map Responded [first_page] ++ Responded token_expired :: []) = Some run
    /\ outcome run = Raise e
    /\ List.length (issued run) = 2%nat
    /\ option_map outcome
         (fetch_ads str_of tech_query "test-token" [Responded token_expired])
       = Some (Raise e)
    /\ (forall error,
          error_object token_expired = Some error ->
          e = MetaAPIError 400 (field error "code") (error_message error)).
Proof.
  apply (bad_status_discards_earlier_pages str_of tech_query "test-token"
           [first_page] token_expired [] [record_a; record_b]
           (PStr next_page_url)).
  - discriminate.
  - reflexivity.
  - discriminate.
Defined.

(** C10. The code at the failing input, a page of two records followed
    by a 502 response whose body holds a string as its [error] member: the
    records of the first page are dropped, as the claim says, but the fetch
    raises an attribute error, not the upstream error. *)
Lemma attribute_error_on_later_page :
  exists run,
    (forall py_str,
       fetch_ads py_str tech_query "test-token"
         [Responded first_page;
          Responded
            bad_gateway]
       = Some run)
    /\ outcome run = Raise AttributeError
    /\ log_pages (logged run) = 2%nat.
Proof.
  exists (mkRun [GetParams BASE_URL (build_params tech_query "test-token");
                 GetUrl next_page_url]
            (mkLog "tech" "GB" 2) (Raise AttributeError)).
  split; [intros; reflexivity | split; reflexivity].
Qed.

(** ** Doubles

    What the gate computes on clock readings is double-precision
    arithmetic. Its subtraction, addition and comparisons are specified by
    the standard library on [spec_float]; this part derives from that
    specification what the gate needs: the order of two doubles is that of
    their values, a difference or a sum is the exact one rounded to nearest
    with ties to even, and a difference reaches 1.0 exactly when the exact
    one reaches 1 - 2^-54. Values are counted in units of 2^-1074, the
    smallest positive double, so that they are integers. *)

Local Open Scope Z_scope.

Definition SF_units (x : spec_float) : Z :=
  match x with
  | S754_finite s m e => cond_Zopp s (Zpos m * 2 ^ (e + 1074))
  | _ => 0
  end.

Definition SF_is_finite (x : spec_float) : bool :=
  match x with
  | S754_zero _ | S754_finite _ _ _ => true
  | _ => false
  end.

Lemma digits2_pos_bounds m :
  2 ^ (Zpos (digits2_pos m) - 1) <= Zpos m < 2 ^ Zpos (digits2_pos m).
Proof.
  induction m as [m IH | m IH |]; simpl digits2_pos.
  - rewrite Pos2Z.inj_succ.
    replace (Z.succ (Zpos (digits2_pos m)) - 1) with (Z.succ (Zpos (digits2_pos m) - 1)) by lia.
    rewrite !Z.pow_succ_r by lia. lia.
  - rewrite Pos2Z.inj_succ.
    replace (Z.succ (Zpos (digits2_pos m)) - 1) with (Z.succ (Zpos (digits2_pos m) - 1)) by lia.
    rewrite !Z.pow_succ_r by lia. lia.
  - simpl. lia.
Qed.

Lemma canonical_exponent m e :
  canonical_mantissa prec emax m e = true ->
  e = Z.max (Zpos (digits2_pos m) + e - 53) (-1074).
Proof.
  unfold canonical_mantissa, fexp, emin, prec, emax. intros H.
  apply Z.eqb_eq in H. lia.
Qed.

(** A canonical mantissa has at most 53 digits, exactly 53 above the
    smallest exponent. *)
Lemma canonical_bounds m e :
  canonical_mantissa prec emax m e = true ->
  -1074 <= e /\ Zpos m < 2 ^ 53 /\ (-1074 < e -> 2 ^ 52 <= Zpos m).
Proof.
  intros H. apply canonical_exponent in H.
  pose proof (digits2_pos_bounds m) as [Hlo Hhi].
  assert (Hd : Zpos (digits2_pos m) <= 53) by lia.
  split; [lia|]. split.
  - eapply Z.lt_le_trans; [exact Hhi|]. apply Z.pow_le_mono_r; lia.
  - intros He. assert (Zpos (digits2_pos m) = 53) by lia.
    rewrite H0 in Hlo. exact Hlo.
Qed.

Lemma pow2_pos k : 0 <= k -> 0 < 2 ^ k.
Proof. intros. now apply Z.pow_pos_nonneg. Qed.

Lemma canonical_lt m1 e1 m2 e2 :
  canonical_mantissa prec emax m1 e1 = true ->
  canonical_mantissa prec emax m2 e2 = true ->
  e1 < e2 ->
  Zpos m1 * 2 ^ (e1 + 1074) < Zpos m2 * 2 ^ (e2 + 1074).
Proof.
  intros H1 H2 He.
  apply canonical_bounds in H1, H2.
  destruct H1 as (Hb1 & Hm1 & _), H2 as (_ & _ & Hm2).
  specialize (Hm2 ltac:(lia)).
  replace (e2 + 1074) with ((e2 - e1) + (e1 + 1074)) by lia.
  rewrite (Z.pow_add_r 2 (e2 - e1) (e1 + 1074)) by lia.
  pose proof (pow2_pos (e1 + 1074) ltac:(lia)) as HA.
  assert (HB : 2 ^ 1 <= 2 ^ (e2 - e1)) by (apply Z.pow_le_mono_r; lia).
  change (2 ^ 1) with 2 in HB.
  set (A := 2 ^ (e1 + 1074)) in *. set (B := 2 ^ (e2 - e1)) in *.
  change (2 ^ 53) with 9007199254740992 in *.
  change (2 ^ 52) with 4503599627370496 in *.
  rewrite Z.mul_assoc. apply Z.mul_lt_mono_pos_r; [exact HA | nia].
Qed.

Lemma valid_finite s m e :
  valid_binary prec emax (S754_finite s m e) = true ->
  canonical_mantissa prec emax m e = true /\ e <= 971.
Proof.
  simpl. unfold bounded. rewrite andb_true_iff, Z.leb_le.
  unfold emax, prec. intros [H1 H2]. split; auto.
Qed.

Lemma SFcompare_units x y :
  valid_binary prec emax x = true -> valid_binary prec emax y = true ->
  SF_is_finite x = true -> SF_is_finite y = true ->
  SFcompare x y = Some (SF_units x ?= SF_units y).
Proof.
  intros Vx Vy Fx Fy.
  destruct x as [sx | sx | | sx mx ex]; try discriminate;
    destruct y as [sy | sy | | sy my ey]; try discriminate; cbn [SFcompare SF_units].
  - reflexivity.
  - apply valid_finite in Vy. destruct Vy as [Cy _].
    apply canonical_bounds in Cy. destruct Cy as (Hy & _).
    pose proof (pow2_pos (ey + 1074) ltac:(lia)).
    destruct sy; cbn [cond_Zopp]; f_equal; symmetry.
    + apply Z.compare_gt_iff. lia.
    + apply Z.compare_lt_iff. lia.
  - apply valid_finite in Vx. destruct Vx as [Cx _].
    apply canonical_bounds in Cx. destruct Cx as (Hx & _).
    pose proof (pow2_pos (ex + 1074) ltac:(lia)).
    destruct sx; cbn [cond_Zopp]; f_equal; symmetry.
    + apply Z.compare_lt_iff. lia.
    + apply Z.compare_gt_iff. lia.
  - apply valid_finite in Vx, Vy. destruct Vx as [Cx _], Vy as [Cy _].
    pose proof (canonical_bounds _ _ Cx) as (Hx & _).
    pose proof (canonical_bounds _ _ Cy) as (Hy & _).
    pose proof (pow2_pos (ex + 1074) ltac:(lia)).
    pose proof (pow2_pos (ey + 1074) ltac:(lia)).
    destruct sx, sy; cbn [cond_Zopp]; f_equal; symmetry.
    + destruct (Z.compare_spec ex ey) as [E | E | E].
      * subst.
        change (Pos.compare_cont Eq mx my) with (Z.compare (Zpos mx) (Zpos my)).
        destruct (Z.compare_spec (Zpos mx) (Zpos my)) as [E' | E' | E'];
          cbn [CompOpp].
        -- apply Z.compare_eq_iff. lia.
        -- apply Z.compare_gt_iff. nia.
        -- apply Z.compare_lt_iff. nia.
      * apply Z.compare_gt_iff. pose proof (canonical_lt _ _ _ _ Cx Cy E). lia.
      * apply Z.compare_lt_iff. pose proof (canonical_lt _ _ _ _ Cy Cx E). lia.
    + apply Z.compare_lt_iff. lia.
    + apply Z.compare_gt_iff. lia.
    + destruct (Z.compare_spec ex ey) as [E | E | E].
      * subst.
        change (Pos.compare_cont Eq mx my) with (Z.compare (Zpos mx) (Zpos my)).
        destruct (Z.compare_spec (Zpos mx) (Zpos my)) as [E' | E' | E'].
        -- apply Z.compare_eq_iff. lia.
        -- apply Z.compare_lt_iff. nia.
        -- apply Z.compare_gt_iff. nia.
      * apply Z.compare_lt_iff. pose proof (canonical_lt _ _ _ _ Cx Cy E). lia.
      * apply Z.compare_gt_iff. pose proof (canonical_lt _ _ _ _ Cy Cx E). lia.
Qed.

(** ** Shifts *)

Lemma fexp_eq k : fexp prec emax k = Z.max (k - 53) (-1074).
Proof. reflexivity. Qed.

Lemma iter_xO_value m d : Zpos (Pos.iter xO m d) = Zpos m * 2 ^ Zpos d.
Proof.
  induction d as [|d IH] using Pos.peano_ind.
  - simpl. lia.
  - rewrite Pos.iter_succ, Pos2Z.inj_succ, Z.pow_succ_r by lia.
    rewrite Pos2Z.inj_xO, IH. lia.
Qed.

Lemma iter_xO_digits m d :
  Zpos (digits2_pos (Pos.iter xO m d)) = Zpos (digits2_pos m) + Zpos d.
Proof.
  induction d as [|d IH] using Pos.peano_ind.
  - simpl. lia.
  - rewrite Pos.iter_succ. simpl digits2_pos. rewrite !Pos2Z.inj_succ, IH. lia.
Qed.

Lemma shl_align_spec mx ex ez :
  ez <= ex ->
  exists mz,
    shl_align mx ex ez = (mz, ez)
    /\ Zpos mz = Zpos mx * 2 ^ (ex - ez)
    /\ Zpos (digits2_pos mz) = Zpos (digits2_pos mx) + (ex - ez).
Proof.
  intros H. unfold shl_align.
  destruct (ez - ex) as [|p|p] eqn:E; try lia.
  - assert (ez = ex) by lia. subst. exists mx.
    rewrite Z.sub_diag. simpl. split; [reflexivity|]. lia.
  - exists (Pos.iter xO mx p).
    assert (ex - ez = Zpos p) as -> by lia.
    split; [reflexivity|]. split.
    + apply iter_xO_value.
    + apply iter_xO_digits.
Qed.

Lemma iter_pos_iter {A : Type} (f : A -> A) p :
  forall x, SpecFloat.iter_pos f p x = Pos.iter f x p.
Proof.
  induction p as [p IH | p IH |]; intros x; simpl.
  - rewrite !IH. now rewrite <- !Pos.iter_swap.
  - now rewrite !IH.
  - reflexivity.
Qed.

Lemma digits_of_bounds m k :
  2 ^ (k - 1) <= Zpos m < 2 ^ k -> Zpos (digits2_pos m) = k.
Proof.
  intros [Hlo Hhi]. pose proof (digits2_pos_bounds m) as [Dlo Dhi].
  set (d := Zpos (digits2_pos m)) in *.
  assert (0 < d) by (unfold d; lia).
  destruct (Z.lt_trichotomy d k) as [Hlt | [Heq | Hgt]]; auto; exfalso.
  - assert (2 ^ d <= 2 ^ (k - 1)) by (apply Z.pow_le_mono_r; lia). lia.
  - assert (0 <= k).
    { destruct (Z.le_gt_cases 0 k); auto.
      rewrite (Z.pow_neg_r 2 k) in Hhi by lia. lia. }
    assert (2 ^ k <= 2 ^ (d - 1)) by (apply Z.pow_le_mono_r; lia). lia.
Qed.

(** ** One rounding step *)

Lemma shr_1_spec m r s :
  0 <= m ->
  exists m' b,
    shr_1 {| shr_m := m; shr_r := r; shr_s := s |}
    = {| shr_m := m'; shr_r := b; shr_s := r || s |}
    /\ 0 <= m' /\ m = 2 * m' + Z.b2z b.
Proof.
  intros H. destruct m as [|[p|p|]|p]; simpl; try lia.
  - exists 0, false. simpl. auto with zarith.
  - exists (Zpos p), true. simpl. split; [reflexivity|]. lia.
  - exists (Zpos p), false. simpl. split; [reflexivity|]. lia.
  - exists 0, true. simpl. split; [reflexivity|]. lia.
Qed.

(** [rec] is [M] shifted right by [p] places: its mantissa, its round bit
    and what the sticky bit stands for add up to [M]. *)
Definition shifted (M p : Z) (rec : shr_record) : Prop :=
  exists r0,
    0 <= shr_m rec
    /\ 0 <= r0 < 2 ^ (p - 1)
    /\ M = 2 ^ (p - 1) * (2 * shr_m rec + Z.b2z (shr_r rec)) + r0
    /\ shr_s rec = negb (r0 =? 0).

Lemma shr_iter M p :
  0 <= M ->
  shifted M (Zpos p)
    (Pos.iter shr_1 {| shr_m := M; shr_r := false; shr_s := false |} p).
Proof.
  intros HM. induction p as [|p IH] using Pos.peano_ind.
  - destruct (shr_1_spec M false false HM) as (m' & b & E & Hm & HMm).
    unfold Pos.iter. rewrite E. exists 0. cbn [shr_m shr_r shr_s].
    change (2 ^ (1 - 1)) with 1.
    repeat split; try lia.
  - rewrite Pos.iter_succ.
    destruct IH as (r0 & Hm & Hr0 & HMeq & Hs).
    destruct (Pos.iter shr_1 _ p) as [m r s]. cbn [shr_m shr_r shr_s] in *.
    destruct (shr_1_spec m r s Hm) as (m' & b & E & Hm' & Hmm).
    rewrite E. exists (2 ^ (Zpos p - 1) * Z.b2z r + r0).
    cbn [shr_m shr_r shr_s].
    rewrite Pos2Z.inj_succ.
    replace (Z.succ (Zpos p) - 1) with (Z.succ (Zpos p - 1)) by lia.
    rewrite Z.pow_succ_r by lia.
    pose proof (pow2_pos (Zpos p - 1) ltac:(lia)) as HP.
    set (P := 2 ^ (Zpos p - 1)) in *.
    repeat split; try lia.
    + destruct r; cbn [Z.b2z]; lia.
    + destruct r; cbn [Z.b2z]; nia.
    + subst s. destruct r; cbn [Z.b2z orb].
      * symmetry. apply negb_true_iff, Z.eqb_neq. lia.
      * now rewrite Z.mul_0_r, Z.add_0_l.
Qed.

Lemma round_spec M p rec :
  0 < p -> shifted M p rec ->
  let m2 := round_nearest_even (shr_m rec) (loc_of_shr_record rec) in
  shr_m rec <= m2 <= shr_m rec + 1
  /\ 2 * Z.abs (m2 * 2 ^ p - M) <= 2 ^ p
  /\ (2 * Z.abs (m2 * 2 ^ p - M) = 2 ^ p -> Z.even m2 = true).
Proof.
  intros Hp (r0 & Hm & Hr0 & HM & Hs). cbv zeta.
  assert (E2 : 2 ^ p = 2 * 2 ^ (p - 1)).
  { rewrite <- Z.pow_succ_r by lia. f_equal. lia. }
  rewrite !E2. clear E2.
  pose proof (pow2_pos (p - 1) ltac:(lia)) as HP.
  set (P := 2 ^ (p - 1)) in *.
  destruct rec as [m r s]. cbn [shr_m shr_r shr_s] in *.
  destruct r, s; cbn [loc_of_shr_record round_nearest_even Z.b2z] in *;
    try (symmetry in Hs; apply negb_true_iff, Z.eqb_neq in Hs);
    try (symmetry in Hs; apply negb_false_iff, Z.eqb_eq in Hs).
  - repeat split; try nia.
  - destruct (Z.even m) eqn:Ev.
    + repeat split; try nia. auto.
    + repeat split; try nia. intros _.
      rewrite Z.even_add, Ev. reflexivity.
  - repeat split; try nia.
  - repeat split; try nia.
Qed.

(** ** Rounding a positive integer mantissa *)

Definition make_float (s : bool) (m : positive) (e : Z) : spec_float :=
  if e <=? 971 then S754_finite s m e else S754_infinity s.

Definition round_result (s : bool) (m2 e1 : Z) : spec_float :=
  if m2 <? 2 ^ 53 then make_float s (Z.to_pos m2) e1
  else make_float s (2 ^ 52)%positive (e1 + 1).

Definition nearest_even (X e1 m2 : Z) : Prop :=
  -1074 <= e1
  /\ 0 < m2 <= 2 ^ 53
  /\ X < 2 ^ 53 * 2 ^ (e1 + 1074)
  /\ (-1074 < e1 -> 2 ^ 52 * 2 ^ (e1 + 1074) <= X)
  /\ 2 * Z.abs (m2 * 2 ^ (e1 + 1074) - X) <= 2 ^ (e1 + 1074)
  /\ (2 * Z.abs (m2 * 2 ^ (e1 + 1074) - X) = 2 ^ (e1 + 1074) ->
      Z.even m2 = true).

Lemma shr_fexp_exact m e :
  Z.max (Zpos (digits2_pos m) + e - 53) (-1074) = e ->
  shr_fexp prec emax (Zpos m) e loc_Exact
  = ({| shr_m := Zpos m; shr_r := false; shr_s := false |}, e).
Proof.
  intros H. unfold shr_fexp. cbn [Zdigits2 shr_record_of_loc].
  rewrite fexp_eq, H, Z.sub_diag. reflexivity.
Qed.

Lemma binary_round_aux_exact s m e :
  Z.max (Zpos (digits2_pos m) + e - 53) (-1074) = e ->
  binary_round_aux prec emax s (Zpos m) e loc_Exact = make_float s m e.
Proof.
  intros H. unfold binary_round_aux.
  rewrite (shr_fexp_exact m e H).
  cbn [shr_m loc_of_shr_record round_nearest_even].
  rewrite (shr_fexp_exact m e H). reflexivity.
Qed.

Lemma binary_round_spec s M e :
  -1074 <= e ->
  exists e1 m2,
    nearest_even (Zpos M * 2 ^ (e + 1074)) e1 m2
    /\ binary_round prec emax s M e = round_result s m2 e1.
Proof.
  intros He. unfold binary_round. rewrite fexp_eq.
  pose proof (digits2_pos_bounds M) as [Dlo Dhi].
  set (d := Zpos (digits2_pos M)) in *.
  assert (Hd : 0 < d) by (unfold d; lia).
  remember (Z.max (d + e - 53) (-1074)) as e1 eqn:He1.
  pose proof (pow2_pos (e + 1074) ltac:(lia)) as HA.
  destruct (Z.le_gt_cases e1 e) as [Hle | Hgt].
  - destruct (shl_align_spec M e e1 Hle) as (mz & -> & Hmz & Hdz).
    fold d in Hdz.
    rewrite binary_round_aux_exact by lia.
    pose proof (digits2_pos_bounds mz) as [Zlo Zhi]. rewrite Hdz in Zlo, Zhi.
    assert (Hz53 : Zpos mz < 2 ^ 53).
    { eapply Z.lt_le_trans; [exact Zhi|]. apply Z.pow_le_mono_r; lia. }
    assert (HX : Zpos mz * 2 ^ (e1 + 1074) = Zpos M * 2 ^ (e + 1074)).
    { rewrite Hmz, <- Z.mul_assoc, <- Z.pow_add_r by lia. do 2 f_equal. lia. }
    pose proof (pow2_pos (e1 + 1074) ltac:(lia)) as HB.
    exists e1, (Zpos mz). split.
    + unfold nearest_even. rewrite <- HX.
      replace (Zpos mz * 2 ^ (e1 + 1074) - Zpos mz * 2 ^ (e1 + 1074)) with 0 by lia.
      change (Z.abs 0) with 0.
      repeat split; try lia.
      * apply Z.mul_lt_mono_pos_r; lia.
      * intros Hsub. apply Z.mul_le_mono_nonneg_r; [lia|].
        replace (d + (e - e1) - 1) with 52 in Zlo by lia. exact Zlo.
    + unfold round_result. destruct (Z.ltb_spec (Zpos mz) (2 ^ 53)); [reflexivity | lia].
  - assert (He1' : e1 = d + e - 53) by lia.
    unfold shl_align.
    destruct (e1 - e) as [|p|p] eqn:Ep; try lia.
    unfold binary_round_aux, shr_fexp at 1.
    cbn [Zdigits2 shr_record_of_loc]. fold d.
    rewrite fexp_eq, <- He1, Ep. cbn [shr].
    rewrite iter_pos_iter.
    pose proof (shr_iter (Zpos M) p ltac:(lia)) as Hsh.
    pose proof (round_spec (Zpos M) (Zpos p) _ ltac:(lia) Hsh) as Hr.
    destruct Hsh as (r0 & Hm1 & Hr0 & HMeq & Hs).
    set (rec := Pos.iter shr_1 _ p) in *.
    set (m1 := shr_m rec) in *.
    set (m2 := round_nearest_even m1 (loc_of_shr_record rec)) in *.
    cbv zeta in Hr. destruct Hr as (Hm2 & Hnear & Htie).
    assert (E2 : 2 ^ Zpos p = 2 * 2 ^ (Zpos p - 1)).
    { rewrite <- Z.pow_succ_r by lia. f_equal. lia. }
    pose proof (pow2_pos (Zpos p - 1) ltac:(lia)) as HP.
    assert (Ed : 2 ^ d = 2 ^ 53 * 2 ^ Zpos p).
    { rewrite <- Z.pow_add_r by lia. f_equal. lia. }
    assert (Ed1 : 2 ^ (d - 1) = 2 ^ 52 * 2 ^ Zpos p).
    { rewrite <- Z.pow_add_r by lia. f_equal. lia. }
    rewrite Ed in Dhi. rewrite Ed1 in Dlo.
    change (2 ^ 53) with 9007199254740992 in *.
    change (2 ^ 52) with 4503599627370496 in *.
    assert (Hm1b : 4503599627370496 <= m1 < 9007199254740992).
    { rewrite E2 in Dlo, Dhi. set (P := 2 ^ (Zpos p - 1)) in *.
      assert (Z.b2z (shr_r rec) <= 1) by (destruct (shr_r rec); simpl; lia).
      assert (0 <= Z.b2z (shr_r rec)) by (destruct (shr_r rec); simpl; lia).
      split; nia. }
    assert (EB : 2 ^ (e1 + 1074) = 2 ^ Zpos p * 2 ^ (e + 1074)).
    { rewrite <- Z.pow_add_r by lia. f_equal. lia. }
    replace (e + Zpos p) with e1 by lia.
    exists e1, m2. split.
    + unfold nearest_even. rewrite EB.
      change (2 ^ 53) with 9007199254740992.
      change (2 ^ 52) with 4503599627370496.
      set (A := 2 ^ (e + 1074)) in *. set (Q := 2 ^ Zpos p) in *.
      replace (m2 * (Q * A) - Zpos M * A) with ((m2 * Q - Zpos M) * A) by ring.
      rewrite Z.abs_mul, (Z.abs_eq A) by lia.
      repeat split; try lia.
      * rewrite Z.mul_assoc. apply Z.mul_lt_mono_pos_r; lia.
      * intros _. rewrite Z.mul_assoc. apply Z.mul_le_mono_nonneg_r; lia.
      * rewrite Z.mul_assoc. apply Z.mul_le_mono_nonneg_r; lia.
      * rewrite Z.mul_assoc. intros Heq. apply Htie.
        apply Z.mul_cancel_r in Heq; lia.
    + unfold round_result. change (2 ^ 53) with 9007199254740992.
      destruct (Z.ltb_spec m2 9007199254740992) as [Hlt | Hge].
      * destruct m2 as [|q|q] eqn:Em2; try lia.
        rewrite shr_fexp_exact.
        -- reflexivity.
        -- rewrite (digits_of_bounds q 53); [lia|].
           change (2 ^ (53 - 1)) with 4503599627370496.
           change (2 ^ 53) with 9007199254740992. lia.
      * assert (Em2 : m2 = 9007199254740992) by lia. rewrite Em2.
        unfold shr_fexp. cbn [Zdigits2 shr_record_of_loc].
        rewrite fexp_eq.
        change (Zpos (digits2_pos 9007199254740992)) with 54.
        replace (Z.max (54 + e1 - 53) (-1074) - e1) with 1 by lia.
        reflexivity.
Qed.

(** ** What rounding does to the comparison with 1.0 *)

Definition SF_one : spec_float := S754_finite false 4503599627370496 (-52).

(** The least number of units whose rounding reaches 1.0: 1 - 2^-54. *)
Definition threshold : Z := 2 ^ 1074 - 2 ^ 1020.

Lemma unit_cases e1 :
  -1074 <= e1 ->
  0 < 2 ^ 1020
  /\ 2 ^ 1074 = 18014398509481984 * 2 ^ 1020
  /\ ((e1 <= -54 /\ 0 < 2 ^ (e1 + 1074) <= 2 ^ 1020)
      \/ (e1 = -53 /\ 2 ^ (e1 + 1074) = 2 * 2 ^ 1020)
      \/ (-52 <= e1 /\ 4 * 2 ^ 1020 <= 2 ^ (e1 + 1074))).
Proof.
  intros He. split; [now apply pow2_pos|]. split.
  - change 18014398509481984 with (2 ^ 54).
    rewrite <- Z.pow_add_r by lia. reflexivity.
  - destruct (Z.le_gt_cases e1 (-54)) as [H1 | H1]; [left|right].
    + split; auto. split; [apply pow2_pos; lia|].
      apply Z.pow_le_mono_r; lia.
    + destruct (Z.eq_dec e1 (-53)) as [H2 | H2]; [left|right].
      * subst. split; [reflexivity|]. change (-53 + 1074) with (1 + 1020).
        rewrite Z.pow_add_r by lia. reflexivity.
      * split; [lia|]. change 4 with (2 ^ 2).
        rewrite <- Z.pow_add_r by lia. apply Z.pow_le_mono_r; lia.
Qed.

Lemma rounds_mantissa X e1 m2 :
  nearest_even X e1 m2 -> -1074 < e1 -> 2 ^ 52 <= m2.
Proof.
  intros (He & Hm & Hhi & Hlo & Hnear & _) H. specialize (Hlo H).
  pose proof (pow2_pos (e1 + 1074) ltac:(lia)) as HB.
  set (B := 2 ^ (e1 + 1074)) in *.
  change (2 ^ 52) with 4503599627370496 in *. nia.
Qed.

Lemma SFleb_one_fin m e :
  0 < m ->
  SFleb SF_one (make_float false (Z.to_pos m) e)
  = (-52 <? e) || ((e =? -52) && (4503599627370496 <=? m)).
Proof.
  intros Hm. unfold make_float, SF_one.
  destruct (Z.leb_spec e 971); cbn [SFleb SFcompare].
  - destruct (Z.compare_spec (-52) e) as [E | E | E].
    + subst. simpl.
      change (Pos.compare_cont Eq 4503599627370496 (Z.to_pos m))
        with (Z.compare 4503599627370496 (Zpos (Z.to_pos m))).
      rewrite Z2Pos.id by lia.
      destruct (Z.compare_spec 4503599627370496 m);
        destruct (Z.leb_spec 4503599627370496 m); auto; lia.
    + destruct (Z.ltb_spec (-52) e); [reflexivity | lia].
    + destruct (Z.ltb_spec (-52) e); [lia|].
      destruct (Z.eqb_spec e (-52)); [lia | reflexivity].
  - destruct (Z.ltb_spec (-52) e); [reflexivity | lia].
Qed.

Lemma rounds_threshold X e1 m2 s :
  nearest_even X e1 m2 ->
  SFleb SF_one (round_result s m2 e1) = negb s && (threshold <=? X).
Proof.
  intros HR. pose proof HR as (He & Hm & Hhi & Hlo & Hnear & Htie).
  destruct s.
  { unfold round_result, make_float, SF_one.
    destruct (m2 <? 2 ^ 53); [destruct (e1 <=? 971) | destruct (e1 + 1 <=? 971)];
      reflexivity. }
  cbn [negb andb]. unfold threshold.
  destruct (unit_cases e1 He) as (HK & E74 & Hcase). rewrite E74.
  pose proof (pow2_pos (e1 + 1074) ltac:(lia)) as HB.
  pose proof (rounds_mantissa _ _ _ HR) as Hmant.
  change (2 ^ 53) with 9007199254740992 in *.
  change (2 ^ 52) with 4503599627370496 in *.
  unfold round_result. change (2 ^ 53) with 9007199254740992.
  change (2 ^ 52)%positive with (Z.to_pos 4503599627370496).
  set (B := 2 ^ (e1 + 1074)) in *. set (K := 2 ^ 1020) in *.
  destruct (Z.ltb_spec m2 9007199254740992) as [Hlt | Hge];
    rewrite SFleb_one_fin by lia.
  - destruct Hcase as [[Hc HBK] | [[Hc HBK] | [Hc HBK]]].
    + destruct (Z.ltb_spec (-52) e1); [lia|].
      destruct (Z.eqb_spec e1 (-52)); [lia|]. simpl.
      symmetry. apply Z.leb_gt. nia.
    + destruct (Z.ltb_spec (-52) e1); [lia|].
      destruct (Z.eqb_spec e1 (-52)); [lia|]. simpl.
      symmetry. apply Z.leb_gt.
      destruct (Z.lt_ge_cases X (18014398509481984 * K - K)) as [|Hx]; auto.
      exfalso.
      assert (Hm2 : m2 = 9007199254740991) by nia.
      assert (Ht : 2 * Z.abs (m2 * B - X) = B) by nia.
      apply Htie in Ht. rewrite Hm2 in Ht. discriminate.
    + specialize (Hlo ltac:(lia)). specialize (Hmant ltac:(lia)).
      assert (HX : 18014398509481984 * K - K <= X) by nia.
      apply Z.leb_le in HX. rewrite HX.
      destruct (Z.ltb_spec (-52) e1); [reflexivity|].
      assert (e1 = -52) by lia. subst e1. simpl.
      now apply Z.leb_le.
  - assert (Hm2 : m2 = 9007199254740992) by lia.
    destruct Hcase as [[Hc HBK] | [[Hc HBK] | [Hc HBK]]].
    + destruct (Z.ltb_spec (-52) (e1 + 1)); [lia|].
      destruct (Z.eqb_spec (e1 + 1) (-52)); [lia|]. simpl.
      symmetry. apply Z.leb_gt. nia.
    + subst e1. simpl. symmetry. apply Z.leb_le. nia.
    + destruct (Z.ltb_spec (-52) (e1 + 1)); [|lia]. simpl.
      symmetry. apply Z.leb_le. specialize (Hlo ltac:(lia)). nia.
Qed.

(** ** The rounded result: a valid number close to the exact one *)



(** A valid number is its own rounding. *)
Lemma rounds_exact s m e :
  valid_binary prec emax (S754_finite s m e) = true ->
  nearest_even (Zpos m * 2 ^ (e + 1074)) e (Zpos m)
  /\ S754_finite s m e = round_result s (Zpos m) e.
Proof.
  intros V. apply valid_finite in V. destruct V as [C Hemax].
  destruct (canonical_bounds _ _ C) as (He & Hhi & Hlo).
  pose proof (pow2_pos (e + 1074) ltac:(lia)) as HB.
  split.
  - unfold nearest_even. rewrite Z.sub_diag. change (Z.abs 0) with 0.
    repeat split; try lia.
    + apply Z.mul_lt_mono_pos_r; lia.
    + intros H. apply Z.mul_le_mono_nonneg_r; [lia | auto].
  - unfold round_result, make_float.
    destruct (Z.ltb_spec (Zpos m) (2 ^ 53)); [|lia].
    destruct (Z.leb_spec e 971); [reflexivity | lia].
Qed.

(** ** Subtraction and addition *)

Definition SF_is_zero (x : spec_float) : bool :=
  match x with S754_zero _ => true | _ => false end.

(** [r] is the exact value [D] (in units) rounded to nearest, ties to
    even. *)
Definition rounded (D : Z) (r : spec_float) : Prop :=
  (D = 0 -> SF_is_zero r = true)
  /\ (D <> 0 ->
      exists e1 m2, nearest_even (Z.abs D) e1 m2 /\ r = round_result (D <? 0) m2 e1).

Lemma binary_normalize_rounded M e :
  -1074 <= e ->
  rounded (M * 2 ^ (e + 1074)) (binary_normalize prec emax M e false).
Proof.
  intros He. pose proof (pow2_pos (e + 1074) ltac:(lia)) as HA.
  unfold rounded, binary_normalize. destruct M as [|p|p].
  - split; [reflexivity | lia].
  - split; [lia|]. intros _.
    destruct (binary_round_spec false p e He) as (e1 & m2 & HR & ->).
    exists e1, m2. rewrite Z.abs_eq by lia. split; auto.
    destruct (Z.ltb_spec (Zpos p * 2 ^ (e + 1074)) 0); [lia | reflexivity].
  - split; [lia|]. intros _.
    destruct (binary_round_spec true p e He) as (e1 & m2 & HR & ->).
    exists e1, m2.
    replace (Z.abs (Zneg p * 2 ^ (e + 1074))) with (Zpos p * 2 ^ (e + 1074)) by lia.
    split; auto.
    destruct (Z.ltb_spec (Zneg p * 2 ^ (e + 1074)) 0); [reflexivity | lia].
Qed.

Lemma finite_rounded s m e :
  valid_binary prec emax (S754_finite s m e) = true ->
  rounded (cond_Zopp s (Zpos m * 2 ^ (e + 1074))) (S754_finite s m e).
Proof.
  intros V. destruct (rounds_exact s m e V) as [HR Ho].
  pose proof (valid_finite _ _ _ V) as [C _].
  destruct (canonical_bounds _ _ C) as (He & _).
  pose proof (pow2_pos (e + 1074) ltac:(lia)) as HB.
  split.
  - destruct s; cbn [cond_Zopp]; lia.
  - intros _. exists e, (Zpos m).
    destruct s; cbn [cond_Zopp].
    + replace (Z.abs (- (Zpos m * 2 ^ (e + 1074)))) with (Zpos m * 2 ^ (e + 1074)) by lia.
      split; auto.
      destruct (Z.ltb_spec (- (Zpos m * 2 ^ (e + 1074))) 0); [exact Ho | lia].
    + rewrite Z.abs_eq by lia. split; auto.
      destruct (Z.ltb_spec (Zpos m * 2 ^ (e + 1074)) 0); [lia | exact Ho].
Qed.

Lemma shl_align_units mx ex ez :
  -1074 <= ez -> ez <= ex ->
  Zpos (fst (shl_align mx ex ez)) * 2 ^ (ez + 1074) = Zpos mx * 2 ^ (ex + 1074).
Proof.
  intros H1 H2. destruct (shl_align_spec mx ex ez H2) as (mz & -> & Hmz & _).
  cbn [fst]. rewrite Hmz, <- Z.mul_assoc, <- Z.pow_add_r by lia.
  do 2 f_equal. lia.
Qed.

Lemma SFsub_rounded x y :
  valid_binary prec emax x = true -> valid_binary prec emax y = true ->
  SF_is_finite x = true -> SF_is_finite y = true ->
  rounded (SF_units x - SF_units y) (SFsub prec emax x y).
Proof.
  intros Vx Vy Fx Fy.
  destruct x as [sx | sx | | sx mx ex]; try discriminate;
    destruct y as [sy | sy | | sy my ey]; try discriminate;
    cbn [SFsub SF_units].
  - split; [|lia]. intros _. destruct sx, sy; reflexivity.
  - replace (0 - cond_Zopp sy (Zpos my * 2 ^ (ey + 1074)))
      with (cond_Zopp (negb sy) (Zpos my * 2 ^ (ey + 1074)))
      by (destruct sy; cbn [cond_Zopp negb]; lia).
    apply finite_rounded. exact Vy.
  - rewrite Z.sub_0_r. now apply finite_rounded.
  - pose proof (valid_finite _ _ _ Vx) as [Cx _].
    pose proof (valid_finite _ _ _ Vy) as [Cy _].
    destruct (canonical_bounds _ _ Cx) as (Hx & _).
    destruct (canonical_bounds _ _ Cy) as (Hy & _).
    cbv zeta.
    set (ez := Z.min ex ey).
    assert (Hez : -1074 <= ez) by (unfold ez; lia).
    pose proof (shl_align_units mx ex ez Hez ltac:(unfold ez; lia)) as Ex.
    pose proof (shl_align_units my ey ez Hez ltac:(unfold ez; lia)) as Ey.
    pose proof (binary_normalize_rounded
                  (cond_Zopp sx (Zpos (fst (shl_align mx ex ez)))
                   - cond_Zopp sy (Zpos (fst (shl_align my ey ez)))) ez Hez) as H.
    replace ((cond_Zopp sx (Zpos (fst (shl_align mx ex ez)))
              - cond_Zopp sy (Zpos (fst (shl_align my ey ez)))) * 2 ^ (ez + 1074))
      with (cond_Zopp sx (Zpos mx * 2 ^ (ex + 1074))
            - cond_Zopp sy (Zpos my * 2 ^ (ey + 1074))) in H.
    + exact H.
    + rewrite <- Ex, <- Ey. destruct sx, sy; cbn [cond_Zopp]; ring.
Qed.


(** ** Doubles *)

Definition units (x : float) : Z := SF_units (Prim2SF x).

Lemma is_finite_SFfinite x : is_finite x = SF_is_finite (Prim2SF x).
Proof.
  unfold is_finite, is_nan, is_infinity.
  rewrite !FloatAxioms.eqb_spec, FloatAxioms.abs_spec.
  change (Prim2SF infinity) with (S754_infinity false).
  destruct (Prim2SF x) as [s | s | | s m e]; try reflexivity.
  - destruct s; reflexivity.
  - destruct s; unfold SFeqb; cbn [SFabs SFcompare];
      rewrite Z.compare_refl, Pos.compare_cont_refl; reflexivity.
Qed.

Lemma leb_units a b :
  is_finite a = true -> is_finite b = true ->
  (a <=? b)%float = (units a <=? units b).
Proof.
  rewrite !is_finite_SFfinite. intros Fa Fb.
  rewrite FloatAxioms.leb_spec. unfold SFleb, units.
  rewrite SFcompare_units by auto using Prim2SF_valid.
  unfold Z.leb. destruct (_ ?= _); reflexivity.
Qed.


Lemma threshold_pos : 0 < threshold.
Proof.
  unfold threshold. destruct (unit_cases 0 ltac:(lia)) as (HK & E & _). lia.
Qed.

(** The test of line 49: the rounded difference reaches 1.0 exactly when
    the exact difference reaches 1 - 2^-54. *)
Lemma sub_threshold a b :
  is_finite a = true -> is_finite b = true ->
  (1 <=? a - b)%float = (threshold <=? units a - units b).
Proof.
  rewrite !is_finite_SFfinite. intros Fa Fb.
  rewrite FloatAxioms.leb_spec, FloatAxioms.sub_spec. change (Prim2SF 1) with SF_one.
  pose proof (SFsub_rounded _ _ (Prim2SF_valid a) (Prim2SF_valid b) Fa Fb)
    as [Hz Hnz].
  fold (units a) (units b) in *. fold SF64sub in *.
  pose proof threshold_pos as HT.
  destruct (Z.eq_dec (units a - units b) 0) as [E | E].
  - specialize (Hz E). rewrite E.
    destruct (SF64sub (Prim2SF a) (Prim2SF b)); try discriminate.
    destruct (Z.leb_spec threshold 0); [lia | reflexivity].
  - destruct (Hnz E) as (e1 & m2 & HR & ->).
    rewrite (rounds_threshold _ _ _ _ HR).
    destruct (Z.ltb_spec (units a - units b) 0) as [Hneg | Hpos]; cbn [negb andb].
    + destruct (Z.leb_spec threshold (units a - units b)); [lia | reflexivity].
    + now rewrite Z.abs_eq.
Qed.






(** ** The sleep of a refused caller *)







Local Close Scope Z_scope.

(** ** The rate limiter *)

Local Open Scope Q_scope.

(** The exact value of a finite double, in seconds: its count of units of
    2^-1074 s over 2^1074. *)
Definition seconds (x : float) : Q := units x # (2 ^ 1074).

(** The age at which the double-precision difference of two readings
    rounds to 1.0: half a unit in the last place below one second. *)
Definition window_seconds : Q := 1 - (1 # 2 ^ 54).

(** The recorded timestamps inside the trailing window
    [(t - window_seconds, t]]. *)
Definition in_window (t : Q) (r : float) : bool :=
  negb (Qle_bool (seconds r) (t - window_seconds)) && Qle_bool (seconds r) t.

Definition window_count (t : Q) (history : list float) : nat :=
  List.length (filter (in_window t) history).

Lemma seconds_le a b : seconds a <= seconds b <-> (units a <= units b)%Z.
Proof.
  unfold seconds, Qle. cbn [Qnum Qden].
  split; intros H.
  - apply Z.mul_le_mono_pos_r in H; [exact H | reflexivity].
  - apply Z.mul_le_mono_pos_r; [reflexivity | exact H].
Qed.

Lemma seconds_shift (p : Z) (x : float) :
  seconds x + (p # 2 ^ 1074) == (units x + p # 2 ^ 1074).
Proof. unfold seconds. apply Qinv_plus_distr. Qed.

Lemma window_seconds_units : window_seconds == (threshold # 2 ^ 1074).
Proof. vm_compute. reflexivity. Qed.

Lemma seconds_window a b :
  seconds b + window_seconds <= seconds a <-> (threshold <= units a - units b)%Z.
Proof.
  rewrite window_seconds_units, seconds_shift.
  unfold seconds, Qle. cbn [Qnum Qden].
  split; intros H.
  - apply Z.mul_le_mono_pos_r in H; [lia | reflexivity].
  - apply Z.mul_le_mono_pos_r; [reflexivity | lia].
Qed.

(** The order of two finite doubles is that of their values. *)
Lemma leb_seconds a b :
  is_finite a = true -> is_finite b = true ->
  (a <=? b)%float = true <-> seconds a <= seconds b.
Proof.
  intros Fa Fb. rewrite (leb_units a b Fa Fb), seconds_le. apply Z.leb_le.
Qed.

(** The test of line 49 on two finite readings: the entry is dropped
    exactly when it is at least [window_seconds] old. *)
Lemma window_test now t :
  is_finite now = true -> is_finite t = true ->
  (RATE_LIMIT_WINDOW <=? now - t)%float = true
  <-> seconds t + window_seconds <= seconds now.
Proof.
  intros Fn Ft. unfold RATE_LIMIT_WINDOW.
  rewrite (sub_threshold now t Fn Ft), seconds_window. apply Z.leb_le.
Qed.

Lemma window_test_false now t :
  is_finite now = true -> is_finite t = true ->
  (RATE_LIMIT_WINDOW <=? now - t)%float = false
  <-> seconds now < seconds t + window_seconds.
Proof.
  intros Fn Ft. split.
  - intros H. apply Qnot_le_lt. intros Hle.
    apply (window_test now t Fn Ft) in Hle. congruence.
  - intros H. destruct (RATE_LIMIT_WINDOW <=? now - t)%float eqn:E; auto.
    apply (window_test now t Fn Ft) in E. lra.
Qed.






(** ** The gate *)

Definition finite_all (l : list float) : Prop :=
  Forall (fun t => is_finite t = true) l.

(** [prune] drops a prefix of entries that are at least the window old and
    stops in front of an entry that is not. *)
Lemma prune_split now ts :
  is_finite now = true -> finite_all ts ->
  exists dropped,
    ts = (dropped ++ prune now ts)%list
    /\ Forall (fun d => seconds d + window_seconds <= seconds now) dropped.
Proof.
  intros Fn. induction 1 as [|t ts Ft Fts (dropped & Hts & Hd)]; simpl.
  - exists []. auto.
  - destruct (RATE_LIMIT_WINDOW <=? now - t)%float eqn:E.
    + exists (t :: dropped). split.
      * simpl. now f_equal.
      * constructor; auto. now apply window_test.
    + exists []. auto.
Qed.


Lemma prune_length now ts :
  (List.length (prune now ts) <= List.length ts)%nat.
Proof.
  induction ts as [|t ts IH]; simpl; auto.
  destruct (RATE_LIMIT_WINDOW <=? now - t)%float; simpl; lia.
Qed.

Lemma prune_Forall (P : float -> Prop) now ts :
  Forall P ts -> Forall P (prune now ts).
Proof.
  induction 1 as [|t ts Ht Hts IH]; simpl; auto.
  destruct (RATE_LIMIT_WINDOW <=? now - t)%float; auto.
Qed.

(** A deque that [prune] leaves as long as it was is left as it was. *)
Lemma prune_same_length now ts :
  List.length (prune now ts) = List.length ts -> prune now ts = ts.
Proof.
  destruct ts as [|t ts]; simpl; auto.
  destruct (RATE_LIMIT_WINDOW <=? now - t)%float; auto.
  intros H. pose proof (prune_length now ts). lia.
Qed.

Lemma window_count_app t l1 l2 :
  window_count t (l1 ++ l2) = (window_count t l1 + window_count t l2)%nat.
Proof. unfold window_count. now rewrite filter_app, length_app. Qed.

Lemma window_count_le t l : (window_count t l <= List.length l)%nat.
Proof. apply filter_length_le. Qed.

Lemma window_count_expired t now l :
  seconds now <= t ->
  Forall (fun o => seconds o + window_seconds <= seconds now) l ->
  window_count t l = 0%nat.
Proof.
  intros Ht. unfold window_count. induction 1 as [|o l Ho Hl IH]; auto.
  simpl. unfold in_window at 1.
  replace (Qle_bool (seconds o) (t - window_seconds)) with true; auto.
  symmetry. apply Qle_bool_iff. lra.
Qed.

Lemma in_window_true t r : in_window t r = true -> seconds r <= t.
Proof.
  unfold in_window. rewrite andb_true_iff. intros [_ H].
  now apply Qle_bool_iff.
Qed.

(** What every reachable state of the gate satisfies, [last] being the
    latest clock reading: the deque holds at most five entries; what was
    recorded are finite readings, none of them later than [last], which is
    finite once something is recorded; the history is the deque preceded by
    entries that are at least the window older than [last]; and no trailing
    window holds more than five entries of the history. *)
Record gate_inv (last : float) (g : gate) : Prop := mkGateInv {
  inv_length : (List.length (request_timestamps g) <= RATE_LIMIT_PER_SECOND)%nat;
  inv_finite : finite_all (recorded g);
  inv_clock : recorded g = [] \/ is_finite last = true;
  inv_past : Forall (fun t => seconds t <= seconds last) (recorded g);
  inv_history :
    exists old,
      recorded g = (old ++ request_timestamps g)%list
      /\ Forall (fun o => seconds o + window_seconds <= seconds last) old;
  inv_window :
    forall t, (window_count t (recorded g) <= RATE_LIMIT_PER_SECOND)%nat
}.

Lemma gate_inv_init last : gate_inv last gate_init.
Proof.
  constructor; simpl; auto.
  - unfold RATE_LIMIT_PER_SECOND. lia.
  - constructor.
  - exists []. auto.
  - intros t. unfold RATE_LIMIT_PER_SECOND. cbv. lia.
Qed.

(** The invariant survives the passing of time. *)
Lemma gate_inv_later last now g :
  is_finite now = true -> (last <=? now)%float = true ->
  gate_inv last g -> gate_inv now g.
Proof.
  intros Fn Hmono [Hlen Hfin Hclock Hpast (old & Hrec & Hold) Hwin].
  destruct Hclock as [Hnil | Fl].
  - assert (request_timestamps g = [] /\ old = []) as [Hd Ho].
    { rewrite Hnil in Hrec. symmetry in Hrec.
      apply app_eq_nil in Hrec. tauto. }
    constructor; auto.
    + rewrite Hnil. constructor.
    + exists []. rewrite Hd, Hnil. auto.
  - assert (Hle : seconds last <= seconds now) by now apply leb_seconds.
    constructor; auto.
    + revert Hpast. apply Forall_impl. intros a Ha. lra.
    + exists old. split; auto.
      revert Hold. apply Forall_impl. intros a Ha. lra.
Qed.

Lemma deque_of_history now g :
  gate_inv now g ->
  finite_all (request_timestamps g)
  /\ Forall (fun t => seconds t <= seconds now) (request_timestamps g).
Proof.
  intros [_ Hfin _ Hpast (old & Hrec & _) _].
  unfold finite_all in *. rewrite Hrec in Hfin, Hpast.
  apply Forall_app in Hfin, Hpast. tauto.
Qed.

Lemma gate_step_inv now g :
  is_finite now = true -> gate_inv now g -> gate_inv now (gate_step g now).
Proof.
  intros Fn Hinv.
  destruct (deque_of_history now g Hinv) as [Hdf Hdp].
  destruct Hinv as [Hlen Hfin _ Hpast (old & Hrec & Hold) Hwin].
  unfold gate_step, attempt.
  destruct (prune_split now (request_timestamps g) Fn Hdf) as (dropped & Hts & Hdrop).
  set (ts := prune now (request_timestamps g)) in *.
  assert (Hold' : Forall (fun o => seconds o + window_seconds <= seconds now)
                    (old ++ dropped)).
  { apply Forall_app. split; auto. }
  assert (Hrec' : recorded g = ((old ++ dropped) ++ ts)%list).
  { rewrite Hrec, Hts at 1. now rewrite app_assoc. }
  destruct (Nat.ltb_spec (List.length ts) RATE_LIMIT_PER_SECOND) as [Hlt | Hge].
  - constructor; simpl; auto.
    + rewrite length_app. simpl. lia.
    + apply Forall_app. split; auto.
    + apply Forall_app. split; auto. constructor; auto. lra.
    + exists (old ++ dropped)%list. split; auto.
      rewrite Hrec'. now rewrite app_assoc.
    + intros t. rewrite window_count_app.
      destruct (in_window t now) eqn:Ein.
      * apply in_window_true in Ein.
        rewrite Hrec', window_count_app.
        rewrite (window_count_expired t now (old ++ dropped)); auto.
        pose proof (window_count_le t ts).
        pose proof (window_count_le t [now]). simpl in *. lia.
      * unfold window_count at 2. simpl. rewrite Ein. simpl.
        specialize (Hwin t). lia.
  - constructor; simpl; auto.
    + pose proof (prune_length now (request_timestamps g)). fold ts in H. lia.
    + exists (old ++ dropped)%list. auto.
Qed.

Lemma step_pass s i now jitter s' :
  step s (Pass i now jitter) = Some s' ->
  exists c,
    nth_error (callers s) i = Some c /\ in_flight c = true
    /\ is_finite now = true /\ (clock s <=? now)%float = true
    /\ jitter_in_range jitter = true
    /\ s' = mkSystem now (gate_step (shared s) now)
              (set_caller i
                 (after_attempt now jitter (request_timestamps (shared s)))
                 (callers s)).
Proof.
  unfold step. destruct (nth_error (callers s) i) as [c|]; [|discriminate].
  destruct (in_flight c) eqn:E1; [|discriminate].
  destruct (is_finite now) eqn:E2; [|discriminate].
  destruct (clock s <=? now)%float eqn:E3; [|discriminate].
  destruct (jitter_in_range jitter) eqn:E4; [|discriminate].
  simpl. intros H. inversion H; subst. exists c. auto 10.
Qed.

Lemma step_inv s e s' :
  gate_inv (clock s) (shared s) -> step s e = Some s' ->
  gate_inv (clock s') (shared s').
Proof.
  intros Hinv. destruct e as [|i now jitter].
  - simpl. intros H. inversion H; subst. exact Hinv.
  - intros H. apply step_pass in H.
    destruct H as (c & _ & _ & Fn & Hc & _ & ->). simpl.
    apply gate_step_inv; auto. now apply (gate_inv_later (clock s)).
Qed.

(** The invariant of the gate holds in every execution. *)
Lemma execute_inv events :
  forall s s',
    gate_inv (clock s) (shared s) -> execute events s = Some s' ->
    gate_inv (clock s') (shared s').
Proof.
  induction events as [|e events IH]; simpl; intros s s' Hinv H.
  - inversion H; subst. exact Hinv.
  - destruct (step s e) as [s1|] eqn:Hs; [|discriminate].
    eapply IH; [|exact H]. eapply step_inv; eauto.
Qed.



Lemma wait_loop_granted passes now jitter ts ts' :
  attempt now ts = Granted ts' ->
  _wait_for_rate_limit_slot ((now, jitter) :: passes) ts = Some (ts', []).
Proof. intros H. simpl. now rewrite H. Qed.






(** Twelve calls at one clock tick, each passing once at that tick. *)
Definition twelve_rapid_calls : list event :=
  (repeat Call 12 ++ map (fun i => Pass i 0 0.125) (seq 0 12))%list.

(** The state those calls lead to: five have returned, their timestamps
    recorded, and seven sleep for the second that is left plus the
    jitter. *)
Definition after_rapid_calls : system :=
  mkSystem 0 (mkGate [0; 0; 0; 0; 0] [0; 0; 0; 0; 0])%float
    (repeat Returned 5
     ++ repeat (Sleeping 0 (sleep_time (RATE_LIMIT_WINDOW - (0 - 0)) 0.125)) 7)%list.





(** A sixth call at 0.75 s is told to wait for the quarter of a second
    that remains; after its sleep it is admitted, the five old entries
    having left the window. *)
Example late_call :
  attempt 0.75 [0; 0; 0; 0; 0]%float = Full [0; 0; 0; 0; 0]%float 0.25
  /\ _wait_for_rate_limit_slot [(0.75, 0.125); (1.125, 0.125)]%float
       [0; 0; 0; 0; 0]%float
     = Some ([1.125]%float, [0.375]%float).
Proof. split; reflexivity. Qed.

(** * Further properties of the code *)

(** ** The rate limiter: order of the deque, admission, bookkeeping *)

(** Beside [gate_inv]: the deque and the history are in time order and
    hold no reading later than [last]. *)
Record gate_order (last : float) (g : gate) : Prop := mkGateOrder {
  order_deque :
    StronglySorted (fun a b => seconds a <= seconds b) (request_timestamps g);
  order_history :
    StronglySorted (fun a b => (a <=? b)%float = true) (recorded g);
  order_past : Forall (fun t => (t <=? last)%float = true) (recorded g)
}.

Lemma prune_sorted now ts :
  StronglySorted (fun a b => seconds a <= seconds b) ts ->
  StronglySorted (fun a b => seconds a <= seconds b) (prune now ts).
Proof.
  induction 1 as [|t ts Hs IH Ht]; simpl; [constructor|].
  destruct (RATE_LIMIT_WINDOW <=? now - t)%float; auto. now constructor.
Qed.

Lemma history_before now g :
  is_finite now = true -> gate_inv now g ->
  Forall (fun t => (t <=? now)%float = true) (recorded g).
Proof.
  intros Fn [_ Hfin _ Hpast _ _].
  unfold finite_all in Hfin. rewrite Forall_forall in *.
  intros t Ht. apply leb_seconds; auto.
Qed.

Lemma gate_step_order now g :
  is_finite now = true -> gate_inv now g -> gate_order now g ->
  gate_order now (gate_step g now).
Proof.
  intros Fn Hinv [Hd Hh Hp].
  destruct (deque_of_history now g Hinv) as [Hdf Hdp].
  pose proof (history_before now g Fn Hinv) as Hb.
  unfold gate_step, attempt.
  destruct (_ <? _)%nat; constructor; simpl; auto using prune_sorted.
  - apply sorted_snoc; [now apply prune_sorted|]. now apply prune_Forall.
  - now apply sorted_snoc.
  - apply Forall_app. split; auto. constructor; auto.
    apply leb_seconds; auto. lra.
Qed.

Lemma execute_order events :
  forall s s',
    gate_inv (clock s) (shared s) -> gate_order (clock s) (shared s) ->
    execute events s = Some s' ->
    gate_order (clock s') (shared s').
Proof.
  induction events as [|e events IH]; simpl; intros s s' Hinv Hord H.
  - inversion H; subst. exact Hord.
  - destruct (step s e) as [s1|] eqn:Hs; [|discriminate].
    apply (IH s1 s'); auto.
    + eapply step_inv; eauto.
    + destruct e as [|i now jitter].
      * simpl in Hs. inversion Hs; subst. exact Hord.
      * apply step_pass in Hs.
        destruct Hs as (c & _ & _ & Fn & Hc & _ & ->). simpl.
        pose proof (gate_inv_later _ _ _ Fn Hc Hinv) as Hnow.
        apply gate_step_order; auto.
        destruct Hord as [Hd Hh _]. constructor; auto.
        now apply history_before.
Qed.

Lemma gate_order_init last : gate_order last gate_init.
Proof. repeat constructor. Qed.

(** On a deque in time order whose entries are not later than [now],
    dropping the expired head entries leaves exactly the entries inside
    the window. *)
Lemma prune_is_filter now ts :
  is_finite now = true -> finite_all ts ->
  StronglySorted (fun a b => seconds a <= seconds b) ts ->
  Forall (fun t => seconds t <= seconds now) ts ->
  prune now ts = filter (in_window (seconds now)) ts.
Proof.
  intros Fn Hf. induction 1 as [|t ts Hs IH Ht]; intros Hp; simpl; auto.
  inversion Hp as [|? ? Htn Hp']; subst.
  inversion Hf as [|? ? Ft Hf']; subst.
  destruct (RATE_LIMIT_WINDOW <=? now - t)%float eqn:E.
  - apply window_test in E; auto.
    replace (in_window (seconds now) t) with false; auto.
    symmetry. unfold in_window.
    replace (Qle_bool (seconds t) (seconds now - window_seconds)) with true; auto.
    symmetry. apply Qle_bool_iff. lra.
  - apply window_test_false in E; auto.
    assert (Hall : forall x, In x (t :: ts) -> in_window (seconds now) x = true).
    { intros x Hx. unfold in_window. apply andb_true_iff. split.
      - apply negb_true_iff.
        destruct (Qle_bool (seconds x) (seconds now - window_seconds)) eqn:Ex; auto.
        apply Qle_bool_iff in Ex.
        assert (seconds t <= seconds x).
        { destruct Hx as [<- | Hx]; [lra|].
          rewrite Forall_forall in Ht. auto. }
        lra.
      - apply Qle_bool_iff. rewrite Forall_forall in Hp. auto. }
    rewrite (Hall t (or_introl eq_refl)). f_equal.
    symmetry. apply forallb_filter_id. apply forallb_forall.
    intros x Hx. apply Hall. now right.
Qed.

(** X1. In every execution the gate admits a caller exactly when fewer
    than five of the timestamps recorded so far lie in the window that
    trails its clock reading, the window of 1 - 2^-54 s inside which the
    double-precision age of an entry stays below 1.0: it never refuses
    while a slot is free. *)
Theorem gate_admits_iff_slot_free events start s now :
  execute events (system_init start) = Some s ->
  is_finite now = true ->
  (clock s <=? now)%float = true ->
  (exists ts, attempt now (request_timestamps (shared s)) = Granted ts)
  <-> (window_count (seconds now) (recorded (shared s))
       < RATE_LIMIT_PER_SECOND)%nat.
Proof.
  intros Hrun Fn Hnow.
  assert (Hinv : gate_inv (clock s) (shared s)).
  { apply (execute_inv events (system_init start)); auto. apply gate_inv_init. }
  assert (Hord : gate_order (clock s) (shared s)).
  { apply (execute_order events (system_init start)); auto.
    - apply gate_inv_init.
    - apply gate_order_init. }
  apply (gate_inv_later _ _ _ Fn Hnow) in Hinv.
  destruct (deque_of_history now _ Hinv) as [Hdf Hdp].
  destruct Hinv as [_ _ _ _ (old & Hrec & Hold) _]. destruct Hord as [Hd _ _].
  assert (Hcount : window_count (seconds now) (recorded (shared s))
                   = List.length (prune now (request_timestamps (shared s)))).
  { rewrite Hrec, window_count_app.
    rewrite (window_count_expired (seconds now) now old); auto; [|lra].
    rewrite prune_is_filter; auto. }
  rewrite Hcount. unfold attempt.
  destruct (Nat.ltb_spec (List.length (prune now (request_timestamps (shared s))))
              RATE_LIMIT_PER_SECOND); split; eauto; try lia.
  intros [ts Hts]. discriminate.
Qed.

Lemma gate_admits_iff_slot_free_witness :
  ((exists ts, attempt 0.5 (request_timestamps (shared after_rapid_calls))
               = Granted ts)
   <-> (window_count (seconds 0.5) (recorded (shared after_rapid_calls))
        < RATE_LIMIT_PER_SECOND)%nat)
  /\ window_count (seconds 0.5) (recorded (shared after_rapid_calls)) = 5%nat.
Proof.
  split; [|vm_compute; reflexivity].
  apply (gate_admits_iff_slot_free twelve_rapid_calls 0%float after_rapid_calls 0.5).
  - reflexivity.
  - reflexivity.
  - reflexivity.
Defined.

Definition has_returned (c : caller) : bool :=
  match c with Returned => true | _ => false end.

Definition returned_count (cs : list caller) : nat :=
  List.length (filter has_returned cs).

Lemma returned_count_set i c cs c0 :
  nth_error cs i = Some c0 -> in_flight c0 = true ->
  returned_count (set_caller i c cs)
  = ((if has_returned c then 1 else 0) + returned_count cs)%nat.
Proof.
  unfold returned_count. revert i.
  induction cs as [|c1 cs IH]; intros [|i]; simpl; try discriminate.
  - intros H Hf. inversion H; subst.
    destruct c0; try discriminate; simpl; destruct (has_returned c); reflexivity.
  - intros H Hf. specialize (IH i H Hf).
    destruct (has_returned c1); simpl; rewrite IH;
      destruct (has_returned c); simpl; lia.
Qed.

Lemma set_caller_length i c cs :
  List.length (set_caller i c cs) = List.length cs.
Proof.
  revert i. induction cs as [|c0 cs IH]; intros [|i]; simpl; auto.
Qed.

(** The callers that have returned are as many as the timestamps
    recorded, and an event never removes a caller. *)
Lemma step_bookkeeping s e s' :
  step s e = Some s' ->
  returned_count (callers s) = List.length (recorded (shared s)) ->
  returned_count (callers s') = List.length (recorded (shared s'))
  /\ (List.length (callers s) <= List.length (callers s'))%nat.
Proof.
  destruct e as [|i now jitter].
  - simpl. intros H Hc. inversion H; subst. simpl.
    unfold returned_count in *. rewrite filter_app, !length_app. simpl. lia.
  - intros H Hc. apply step_pass in H.
    destruct H as (c & Hi & Hf & _ & _ & _ & ->). simpl.
    rewrite (returned_count_set _ _ _ _ Hi Hf), set_caller_length.
    unfold after_attempt, gate_step.
    destruct (attempt now (request_timestamps (shared s))); simpl;
      rewrite ?length_app; simpl; lia.
Qed.

(** X2. In every execution each caller that has returned has recorded
    one timestamp and no timestamp is recorded otherwise: the callers that
    have returned are as many as the timestamps in the history. The history
    is in time order, holds no reading later than the clock, and the deque
    never holds more than five entries. *)
Theorem gate_bookkeeping events start s :
  execute events (system_init start) = Some s ->
  returned_count (callers s) = List.length (recorded (shared s))
  /\ StronglySorted (fun a b => (a <=? b)%float = true) (recorded (shared s))
  /\ Forall (fun t => (t <=? clock s)%float = true) (recorded (shared s))
  /\ (List.length (request_timestamps (shared s)) <= RATE_LIMIT_PER_SECOND)%nat.
Proof.
  intros Hrun.
  assert (Hinv : gate_inv (clock s) (shared s)).
  { apply (execute_inv events (system_init start)); auto. apply gate_inv_init. }
  assert (Hord : gate_order (clock s) (shared s)).
  { apply (execute_order events (system_init start)); auto.
    - apply gate_inv_init.
    - apply gate_order_init. }
  split; [|split; [apply Hord | split; [apply Hord | apply Hinv]]].
  assert (Hgen : forall s0,
             returned_count (callers s0) = List.length (recorded (shared s0)) ->
             execute events s0 = Some s ->
             returned_count (callers s) = List.length (recorded (shared s))).
  { clear. induction events as [|e events IH]; simpl; intros s0 Hc H.
    - inversion H; subst. exact Hc.
    - destruct (step s0 e) as [s1|] eqn:Hs; [|discriminate].
      apply (IH s1); auto. now apply (step_bookkeeping s0 e s1). }
  apply (Hgen (system_init start)); auto.
Qed.

Lemma gate_bookkeeping_witness :
  returned_count (callers after_rapid_calls)
  = List.length (recorded (shared after_rapid_calls))
  /\ StronglySorted (fun a b => (a <=? b)%float = true)
       (recorded (shared after_rapid_calls))
  /\ Forall (fun t => (t <=? clock after_rapid_calls)%float = true)
       (recorded (shared after_rapid_calls))
  /\ (List.length (request_timestamps (shared after_rapid_calls))
      <= RATE_LIMIT_PER_SECOND)%nat.
Proof.
  apply (gate_bookkeeping twelve_rapid_calls 0%float after_rapid_calls). reflexivity.
Defined.

Local Close Scope Q_scope.

(** ** The normaliser: where each field comes from *)

(** X3. In every ad the normaliser returns, the source is "meta", the
    creative URL and the snapshot URL are the same value, the status is
    never null, and advertiser, first_seen and snapshot_url are the
    validated page name, delivery start time and snapshot URL of the
    record. *)
Theorem normalise_field_sources py_str record ad :
  _normalise_record py_str record = Ok ad ->
  source ad = "meta"
  /\ creative_url ad = snapshot_url ad
  /\ (status ad = Some active \/ status ad = Some inactive)
  /\ exists name start url,
       py_get record "page_name" = Ok name
       /\ py_get record "ad_delivery_start_time" = Ok start
       /\ py_get record "ad_snapshot_url" = Ok url
       /\ validate_opt_str name = Ok (advertiser ad)
       /\ validate_opt_str start = Ok (first_seen ad)
       /\ validate_opt_str url = Ok (snapshot_url ad).
Proof.
  intros H. destruct (normalise_needs_dict _ _ _ H) as [entries ->].
  rewrite normalise_dict in H. cbv zeta in H. apply NormalisedAd_init_ok in H.
  destruct H as (Hsrc & Ha & _ & _ & Hcu & Hfs & _ & Hst & _ & Hsu).
  split; [exact Hsrc|]. split; [congruence|]. split.
  - destruct (truthy _); simpl in Hst; inversion Hst; auto.
  - exists (field entries "page_name"), (field entries "ad_delivery_start_time"),
      (field entries "ad_snapshot_url").
    repeat split; assumption.
Qed.

Lemma normalise_field_sources_witness :
  source stopped_ad = "meta"
  /\ creative_url stopped_ad = snapshot_url stopped_ad
  /\ (status stopped_ad = Some active \/ status stopped_ad = Some inactive)
  /\ exists name start url,
       py_get stopped_record "page_name" = Ok name
       /\ py_get stopped_record "ad_delivery_start_time" = Ok start
       /\ py_get stopped_record "ad_snapshot_url" = Ok url
       /\ validate_opt_str name = Ok (advertiser stopped_ad)
       /\ validate_opt_str start = Ok (first_seen stopped_ad)
       /\ validate_opt_str url = Ok (snapshot_url stopped_ad).
Proof.
  apply (normalise_field_sources str_of stopped_record stopped_ad). reflexivity.
Defined.

Lemma mapM_validate_str_ok items :
  forall l, mapM validate_str items = Ok l ->
  exists strs, items = map PStr strs /\ l = map strip strs.
Proof.
  induction items as [|v items IH]; simpl; intros l H.
  - inversion H. exists []. auto.
  - apply bind_ok in H. destruct H as (s & Hs & H).
    apply bind_ok in H. destruct H as (l' & Hl & H). inversion H; subst.
    destruct v; try discriminate. inversion Hs; subst.
    destruct (IH l' Hl) as (strs & -> & ->).
    exists (s0 :: strs). auto.
Qed.

(** X4. The platforms of a returned ad: null when the raw field is missing
    or null; the stripped strings when it is a list (a list that reaches the
    ad holds strings only); and for any other value, a single string
    included, the one-element list of its stripped [str]. *)
Theorem normalise_platforms py_str entries ad :
  _normalise_record py_str (PDict entries) = Ok ad ->
  match field entries "publisher_platforms" with
  | PNone => platforms ad = None
  | PList items =>
      exists strs, items = map PStr strs /\ platforms ad = Some (map strip strs)
  | v => platforms ad = Some [strip (py_str v)]
  end.
Proof.
  intros H. rewrite normalise_dict in H. cbv zeta in H.
  apply NormalisedAd_init_ok in H.
  destruct H as (_ & _ & _ & _ & _ & _ & _ & _ & Hps & _).
  destruct (field entries "publisher_platforms"); simpl in Hps;
    try (inversion Hps; reflexivity).
  apply bind_ok in Hps. destruct Hps as (l & Hl & Hps). inversion Hps; subst.
  destruct (mapM_validate_str_ok _ _ Hl) as (strs & -> & ->). eauto.
Qed.

(** An ad whose platforms came as one string. *)
Definition facebook_only : NormalisedAd :=
  mkNormalisedAd "meta" None None None None None None (Some active)
    (Some ["facebook"]) None.

Lemma normalise_platforms_witness :
  _normalise_record str_of (PDict [("publisher_platforms", PStr "facebook ")])
  = Ok facebook_only
  /\ platforms facebook_only = Some [strip (str_of (PStr "facebook "))].
Proof.
  split; [reflexivity|].
  apply (normalise_platforms str_of
           [("publisher_platforms", PStr "facebook ")] facebook_only).
  reflexivity.
Defined.

(** *** Stripping *)

(** A string that does not begin with whitespace. *)
Definition starts_clean (s : string) : Prop :=
  match s with
  | EmptyString => True
  | String c _ => is_whitespace c = false
  end.

Lemma lstrip_clean s : starts_clean (lstrip s).
Proof.
  induction s as [|c s IH]; simpl; auto.
  destruct (is_whitespace c) eqn:E; simpl; auto.
Qed.

Lemma lstrip_of_clean s : starts_clean s -> lstrip s = s.
Proof. destruct s as [|c s]; simpl; auto. now intros ->. Qed.

Lemma rstrip_clean s : starts_clean s -> starts_clean (rstrip s).
Proof.
  destruct s as [|c s]; simpl; auto. intros Hc.
  destruct (rstrip s); simpl; rewrite ?Hc; simpl; auto.
Qed.

Lemma rstrip_idempotent s : rstrip (rstrip s) = rstrip s.
Proof.
  induction s as [|c s IH]; simpl; auto.
  destruct (rstrip s) as [|d r] eqn:E.
  - destruct (is_whitespace c) eqn:Ec; simpl; auto. now rewrite Ec.
  - change (rstrip (String c (String d r)) = String c (String d r)).
    cbn [rstrip] in *. now rewrite IH.
Qed.

Lemma strip_idempotent s : strip (strip s) = strip s.
Proof.
  unfold strip.
  rewrite (lstrip_of_clean (rstrip (lstrip s))).
  - apply rstrip_idempotent.
  - apply rstrip_clean, lstrip_clean.
Qed.

Lemma strip_starts_clean s : starts_clean (strip s).
Proof. apply rstrip_clean, lstrip_clean. Qed.

(** A string without surrounding whitespace: stripping changes nothing. *)
Definition stripped (s : string) : Prop := strip s = s /\ starts_clean s.

Definition opt_stripped (o : option string) : Prop :=
  match o with Some s => stripped s | None => True end.

Lemma validate_opt_str_stripped v o :
  validate_opt_str v = Ok o -> opt_stripped o.
Proof.
  intros H. apply validate_opt_str_ok in H.
  destruct H as [[_ ->] | (s & _ & ->)]; simpl; auto.
  split; [apply strip_idempotent | apply strip_starts_clean].
Qed.

(** X5. No string of a returned ad carries leading or trailing whitespace,
    whatever the record held: stripping any of them again changes
    nothing. *)
Theorem normalised_strings_are_stripped py_str record ad :
  _normalise_record py_str record = Ok ad ->
  opt_stripped (advertiser ad) /\ opt_stripped (title ad)
  /\ opt_stripped (body ad) /\ opt_stripped (creative_url ad)
  /\ opt_stripped (first_seen ad) /\ opt_stripped (last_seen ad)
  /\ opt_stripped (snapshot_url ad)
  /\ match platforms ad with
     | Some l => Forall stripped l
     | None => True
     end.
Proof.
  intros H. destruct (normalise_needs_dict _ _ _ H) as [entries ->].
  pose proof (normalise_platforms _ _ _ H) as Hp.
  rewrite normalise_dict in H. cbv zeta in H. apply NormalisedAd_init_ok in H.
  destruct H as (_ & Ha & Ht & Hb & Hcu & Hfs & Hls & _ & _ & Hsu).
  repeat match goal with |- _ /\ _ => split end;
    eauto using validate_opt_str_stripped.
  assert (Hs : forall s, stripped (strip s))
    by (split; [apply strip_idempotent | apply strip_starts_clean]).
  destruct (field entries "publisher_platforms");
    try (rewrite Hp; first [exact I | constructor; [apply Hs | constructor]]).
  destruct Hp as (strs & _ & ->). apply Forall_forall.
  intros x Hx. apply in_map_iff in Hx. destruct Hx as (y & <- & _). apply Hs.
Qed.

(** An ad built from padded strings. *)
Definition padded_record : value :=
  PDict [("page_name", PStr "  Acme Corp ");
         ("ad_creative_link_titles", PList [PStr " Big Sale"]);
         ("publisher_platforms", PList [PStr "facebook "; PStr " instagram"])].

Definition unpadded_ad : NormalisedAd :=
  mkNormalisedAd "meta" (Some "Acme Corp") (Some "Big Sale") None None None None
    (Some active) (Some ["facebook"; "instagram"]) None.

Lemma normalised_strings_are_stripped_witness :
  _normalise_record str_of padded_record = Ok unpadded_ad
  /\ opt_stripped (advertiser unpadded_ad) /\ opt_stripped (title unpadded_ad)
  /\ opt_stripped (body unpadded_ad) /\ opt_stripped (creative_url unpadded_ad)
  /\ opt_stripped (first_seen unpadded_ad) /\ opt_stripped (last_seen unpadded_ad)
  /\ opt_stripped (snapshot_url unpadded_ad)
  /\ match platforms unpadded_ad with
     | Some l => Forall stripped l
     | None => True
     end.
Proof.
  split; [reflexivity|].
  apply (normalised_strings_are_stripped str_of padded_record unpadded_ad).
  reflexivity.
Defined.

(** ** The sorter: sorted input, missing timestamps *)

Section SortedInput.
Context {A : Type} (key : A -> string * string).

Lemma stable_sort_of_sorted l :
  StronglySorted (ascending key) l -> stable_sort key l = l.
Proof.
  induction 1 as [|x l Hs IH Hx]; simpl; auto.
  rewrite IH. destruct l as [|y l]; simpl; auto.
  inversion Hx as [|? ? Hy _]; subst. unfold ascending in Hy. now rewrite Hy.
Qed.

Lemma rev_descending l :
  StronglySorted (descending key) l -> StronglySorted (ascending key) (rev l).
Proof.
  induction 1 as [|x l Hs IH Hx]; simpl; [constructor|].
  apply sorted_snoc; auto.
  rewrite Forall_forall in *. intros a Ha. apply in_rev in Ha.
  exact (Hx _ Ha).
Qed.

Lemma sorted_reverse_of_descending l :
  StronglySorted (descending key) l -> sorted key true l = l.
Proof.
  intros H. unfold sorted.
  rewrite (stable_sort_of_sorted (rev l) (rev_descending l H)).
  apply rev_involutive.
Qed.
End SortedInput.

(** X6. [_sort_ads] returns a list that is already in descending key order
    as it is, so sorting twice is sorting once. *)
Theorem sort_ads_fixes_sorted (ads : list NormalisedAd) :
  (StronglySorted (fun a b => key_lt (sort_key a) (sort_key b) = false) ads ->
   _sort_ads ads = ads)
  /\ _sort_ads (_sort_ads ads) = _sort_ads ads.
Proof.
  split.
  - apply (sorted_reverse_of_descending sort_key).
  - apply (sorted_reverse_of_descending sort_key).
    apply (sorted_reverse_descending sort_key).
Qed.

Lemma sort_ads_fixes_sorted_witness :
  _sort_ads [seen (Some "2024-05-04") None; seen (Some "2024-05-01") None]
  = [seen (Some "2024-05-04") None; seen (Some "2024-05-01") None].
Proof.
  apply (proj1 (sort_ads_fixes_sorted
                  [seen (Some "2024-05-04") None; seen (Some "2024-05-01") None])).
  repeat constructor.
Defined.

Lemma sorted_after (R : NormalisedAd -> NormalisedAd -> Prop) before a after :
  StronglySorted R (before ++ a :: after) -> Forall (R a) after.
Proof.
  induction before as [|x before IH]; simpl; intros H;
    inversion H; subst; auto.
Qed.

Lemma empty_is_least s : s <> EmptyString -> String.compare EmptyString s = Lt.
Proof. destruct s; simpl; congruence. Qed.

(** X7. Ads without a last-seen time come last: behind an ad whose
    last_seen is null or empty, the sorted list holds no ad with a
    last-seen time. *)
Theorem sort_ads_undated_last ads before a after :
  _sort_ads ads = before ++ a :: after ->
  or_empty (last_seen a) = EmptyString ->
  Forall (fun b => or_empty (last_seen b) = EmptyString) after.
Proof.
  intros Hs Ha.
  pose proof (sorted_reverse_descending sort_key ads) as Hd.
  fold (_sort_ads ads) in Hd. rewrite Hs in Hd.
  apply sorted_after in Hd. revert Hd. apply Forall_impl.
  intros b Hb. unfold descending, key_lt, sort_key in Hb. simpl in Hb.
  rewrite Ha in Hb.
  destruct (string_dec (or_empty (last_seen b)) EmptyString) as [E | E]; auto.
  rewrite (empty_is_least _ E) in Hb. discriminate.
Qed.

Lemma sort_ads_undated_last_witness :
  Forall (fun b => or_empty (last_seen b) = EmptyString)
    [seen (Some "") (Some "2024-04-01")].
Proof.
  apply (sort_ads_undated_last
           [seen (Some "") (Some "2024-04-01"); seen None (Some "2024-04-09");
            seen (Some "2024-05-04") None]
           [seen (Some "2024-05-04") None] (seen None (Some "2024-04-09"))
           [seen (Some "") (Some "2024-04-01")]).
  - reflexivity.
  - reflexivity.
Defined.

(** ** The fetch: what it returns, what it requests *)

Lemma fetch_ads_returns py_str q tok upstream run ads :
  (0 <= limit q)%Z ->
  fetch_ads py_str q tok upstream = Some run ->
  outcome run = Ok ads ->
  exists raw normalised,
    Forall2 (fun record ad => _normalise_record py_str record = Ok ad)
      (firstn (Nat.min (Z.to_nat (limit q)) (List.length raw)) raw) normalised
    /\ ads = _sort_ads normalised.
Proof.
  intros Hl Hf Ho. unfold fetch_ads in Hf.
  destruct (fetch_loop q (build_params q tok) upstream [] PNone [] 0)
    as [e|]; [|discriminate].
  inversion Hf; subst. simpl in Ho.
  apply bind_ok in Ho. destruct Ho as (raw & _ & Hfin).
  exists raw. now apply finish_ok.
Qed.

Lemma sort_ads_length ads : List.length (_sort_ads ads) = List.length ads.
Proof.
  symmetry. apply Permutation_length. apply (sorted_reverse_perm sort_key).
Qed.

Lemma valid_limit q : AdsQuery_valid q = true -> (1 <= limit q <= 100)%Z.
Proof.
  unfold AdsQuery_valid. rewrite !andb_true_iff.
  intros [[_ H1] H100]. apply Z.leb_le in H1, H100. lia.
Qed.

(** X8. A fetch that returns gives at most [limit] ads, in descending key
    order, each with the source "meta" and a status. *)
Theorem fetch_result_bounded_and_sorted py_str q tok upstream run ads :
  AdsQuery_valid q = true ->
  fetch_ads py_str q tok upstream = Some run ->
  outcome run = Ok ads ->
  (Z.of_nat (List.length ads) <= limit q)%Z
  /\ StronglySorted (fun a b => key_lt (sort_key a) (sort_key b) = false) ads
  /\ Forall (fun ad => source ad = "meta" /\ status ad <> None) ads.
Proof.
  intros Hq Hf Ho. apply valid_limit in Hq.
  assert (Hl : (0 <= limit q)%Z) by lia.
  destruct (fetch_ads_returns _ _ _ _ _ _ Hl Hf Ho)
    as (raw & normalised & Hn & ->).
  split; [|split].
  - rewrite sort_ads_length, <- (Forall2_length Hn), length_firstn. lia.
  - apply (sorted_reverse_descending sort_key).
  - apply (Permutation_Forall (sorted_reverse_perm sort_key normalised)).
    clear Ho. induction Hn as [|record ad l l' Hrec _ IH]; constructor; auto.
    destruct (normalise_field_sources _ _ _ Hrec) as (Hs & _ & Hst & _).
    split; auto. destruct Hst as [-> | ->]; discriminate.
Qed.

Lemma fetch_result_bounded_and_sorted_witness :
  (Z.of_nat (List.length tech_ads) <= limit tech_query)%Z
  /\ StronglySorted (fun a b => key_lt (sort_key a) (sort_key b) = false) tech_ads
  /\ Forall (fun ad => source ad = "meta" /\ status ad <> None) tech_ads.
Proof.
  apply (fetch_result_bounded_and_sorted str_of tech_query "test-token"
           [Responded first_page; Responded second_page]
           (mkRun [GetParams BASE_URL (build_params tech_query "test-token");
                   GetUrl next_page_url]
                  (mkLog "tech" "GB" 2) (Ok tech_ads)) tech_ads).
  - reflexivity.
  - reflexivity.
  - reflexivity.
Defined.

Lemma handle_response_continue q raw r raw' next :
  handle_response q raw r = Ok (Continue raw' next) ->
  status_code r = 200%Z
  /\ truthy next = true
  /\ page_next r = Ok next
  /\ exists items,
       page_data r = Ok items /\ raw' = raw ++ items
       /\ (Z.of_nat (List.length raw') < limit q)%Z.
Proof.
  unfold handle_response, page_data, page_next, raise_api_error.
  destruct (Z.eqb_spec (status_code r) 200) as [Hs | Hs]; simpl.
  2:{ destruct (py_get_default _ "error" _); simpl; [|discriminate].
      destruct (py_get _ "code"); simpl; [|discriminate].
      destruct (py_get_default _ "message" _); simpl; discriminate. }
  destruct (json r) as [payload|]; [|discriminate].
  destruct (py_get_default payload "data" _) as [data|]; simpl; [|discriminate].
  destruct (py_iter data) as [items|]; simpl; [|discriminate].
  destruct (Z.geb_spec (Z.of_nat (List.length (raw ++ items))) (limit q));
    [discriminate|].
  destruct (py_get_default payload "paging" _) as [paging|]; simpl;
    [|discriminate].
  destruct (py_get paging "next") as [next0|]; simpl; [|discriminate].
  destruct (truthy next0) eqn:Et; simpl; intros Heq; inversion Heq; subst.
  repeat split; auto. exists items. auto.
Qed.

(** The cursor a response announces, as a URL. *)
Definition cursor_of (o : http_outcome) : string :=
  match o with
  | Responded r =>
      match page_next r with
      | Ok (PStr u) => u
      | _ => EmptyString
      end
  | Failed _ _ => EmptyString
  end.

(** The requests a loop in a given state may come to issue against a
    script: the one its state calls for, then the cursor of each outcome
    in turn. *)
Definition request_plan (first : request) (upstream : list http_outcome)
    : list request :=
  first :: map (fun o => GetUrl (cursor_of o)) upstream.

Lemma fetch_loop_trace q params upstream :
  forall raw next reqs n e,
    fetch_loop q params upstream raw next reqs n = Some e ->
    exists k,
      (k <= List.length upstream)%nat
      /\ (n <= page_count e <= n + k)%nat
      /\ (k <= S (page_count e - n))%nat
      /\ (forall raw_end, ended e = Ok raw_end -> page_count e = (n + k)%nat /\ (1 <= k)%nat)
      /\ match next_request params next with
         | Ok first => requests e = reqs ++ firstn k (request_plan first upstream)
         | Raise _ => requests e = reqs /\ k = 0%nat
         end.
Proof.
  induction upstream as [|o upstream IH]; intros raw next reqs n e H.
  - simpl in H. destruct (next_request params next); inversion H; subst.
    exists 0%nat. simpl. repeat split; auto; try lia; discriminate.
  - destruct (next_request params next) as [req|] eqn:Hreq.
    2:{ simpl in H. rewrite Hreq in H. inversion H; subst.
        exists 0%nat. simpl. repeat split; auto; try lia; discriminate. }
    destruct o as [r | kind msg].
    2:{ rewrite (fetch_loop_failed _ _ _ _ _ _ _ _ _ _ Hreq) in H.
        inversion H; subst. exists 1%nat. simpl.
        repeat split; auto; try lia; discriminate. }
    rewrite (fetch_loop_responded _ _ _ _ _ _ _ _ _ Hreq) in H.
    destruct (handle_response q raw r) as [[raw' | raw' next']|] eqn:Hh.
    + inversion H; subst. exists 1%nat. simpl. repeat split; auto; lia.
    + destruct (handle_response_continue _ _ _ _ _ Hh) as (_ & Ht & Hn & _).
      destruct (IH _ _ _ _ _ H) as (k & Hk & Hp & Hk' & Hok & Hreqs).
      exists (S k).
      split; [simpl; lia|]. split; [lia|]. split; [lia|]. split.
      { intros raw_end He. destruct (Hok raw_end He). lia. }
      destruct (next_request params next') as [first'|] eqn:Hnext.
      * assert (Hfirst : first' = GetUrl (cursor_of (Responded r))).
        { unfold next_request in Hnext. rewrite Ht in Hnext.
          destruct next'; inversion Hnext. simpl. now rewrite Hn. }
        rewrite Hreqs, <- app_assoc, Hfirst. reflexivity.
      * destruct Hreqs as [Hreqs ->]. rewrite Hreqs. reflexivity.
    + inversion H; subst. exists 1%nat. simpl.
      repeat split; auto; try lia; discriminate.
Qed.

(** X9. The search parameters and the token go out with the first request
    only, which is a GET of [BASE_URL] with the page size set to the limit;
    every later request is a GET of the URL that the page before announced
    as its [next] cursor, taken as it came. *)
Theorem fetch_requests_follow_cursors py_str q tok upstream run :
  fetch_ads py_str q tok upstream = Some run ->
  issued run
  = firstn (List.length (issued run))
      (GetParams BASE_URL
         (mkParams (industry q) "ALL" (country q) FIELDS (limit q) tok)
       :: map (fun o => GetUrl (cursor_of o)) upstream)
  /\ (1 <= List.length (issued run) <= List.length upstream)%nat.
Proof.
  unfold fetch_ads. intros H.
  destruct (fetch_loop q (build_params q tok) upstream [] PNone [] 0)
    as [e|] eqn:He; [|discriminate].
  inversion H; subst. simpl.
  destruct (fetch_loop_trace _ _ _ _ _ _ _ _ He) as (k & Hk & _ & _ & _ & Hreqs).
  simpl in Hreqs. rewrite Hreqs.
  assert (Hlen : List.length (firstn k (request_plan
                   (GetParams BASE_URL (build_params q tok)) upstream)) = k).
  { rewrite length_firstn. unfold request_plan. simpl. rewrite length_map. lia. }
  rewrite Hlen. split; [reflexivity|].
  destruct upstream as [|o upstream]; [discriminate|].
  split; [|exact Hk].
  destruct k; [|lia].
  simpl in He. destruct o as [r | kind msg].
  - destruct (handle_response q [] r) as [[|]|]; try (inversion He; subst; discriminate).
    destruct (fetch_loop_trace _ _ _ _ _ _ _ _ He) as (k' & _ & _ & _ & _ & Hreqs').
    destruct (next_request (build_params q tok) next_url).
    + rewrite Hreqs' in Hreqs. simpl in Hreqs. discriminate.
    + destruct Hreqs' as [Hreqs' _]. rewrite Hreqs' in Hreqs. discriminate.
  - inversion He; subst. discriminate.
Qed.

Lemma fetch_requests_follow_cursors_witness :
  [GetParams BASE_URL (build_params tech_query "test-token");
   GetUrl next_page_url]
  = firstn 2
      (GetParams BASE_URL (mkParams "tech" "ALL" "GB" FIELDS 3 "test-token")
       :: map (fun o => GetUrl (cursor_of o))
            [Responded first_page; Responded second_page])
  /\ (1 <= 2 <= 2)%nat.
Proof.
  apply (fetch_requests_follow_cursors str_of tech_query "test-token"
           [Responded first_page; Responded second_page]
           (mkRun [GetParams BASE_URL (build_params tech_query "test-token");
                   GetUrl next_page_url]
                  (mkLog "tech" "GB" 2) (Ok tech_ads))).
  reflexivity.
Defined.

(** The exceptions that mean the last request got no response. *)
Definition no_response (e : exn) : bool :=
  match e with
  | HttpxError _ _ | MetaTimeoutError _ => true
  | _ => false
  end.

Definition unanswered {A : Type} (r : result A) : nat :=
  match r with
  | Raise e => if no_response e then 1 else 0
  | Ok _ => 0
  end.

Lemma py_get_default_raises obj key default e :
  py_get_default obj key default = Raise e -> e = AttributeError.
Proof. destruct obj; simpl; intros H; inversion H; reflexivity. Qed.

Lemma py_iter_raises obj e : py_iter obj = Raise e -> e = TypeError.
Proof. destruct obj; simpl; intros H; inversion H; reflexivity. Qed.

Lemma bind_raise {A B : Type} (m : result A) (k : A -> result B) e :
  bind m k = Raise e -> m = Raise e \/ exists a, m = Ok a /\ k a = Raise e.
Proof.
  destruct m as [a | e0]; simpl; intros H.
  - right. exists a. split; [reflexivity | exact H].
  - left. inversion H. reflexivity.
Qed.

(** What [handle_response] raises is never a transport exception. *)
Lemma handle_response_raises q raw r e :
  handle_response q raw r = Raise e -> no_response e = false.
Proof.
  unfold handle_response, raise_api_error.
  destruct (negb (status_code r =? 200)%Z).
  - intros H.
    apply bind_raise in H. destruct H as [H | (err & _ & H)].
    { now rewrite (py_get_default_raises _ _ _ _ H). }
    apply bind_raise in H. destruct H as [H | (code & _ & H)].
    { now rewrite (py_get_default_raises _ _ _ _ H). }
    apply bind_raise in H. destruct H as [H | (msg & _ & H)].
    { now rewrite (py_get_default_raises _ _ _ _ H). }
    inversion H. reflexivity.
  - destruct (json r) as [payload|]; [|intros H; inversion H; reflexivity].
    intros H.
    apply bind_raise in H. destruct H as [H | (data & _ & H)].
    { now rewrite (py_get_default_raises _ _ _ _ H). }
    apply bind_raise in H. destruct H as [H | (items & _ & H)].
    { now rewrite (py_iter_raises _ _ H). }
    destruct (_ >=? _)%Z; [discriminate|].
    apply bind_raise in H. destruct H as [H | (paging & _ & H)].
    { now rewrite (py_get_default_raises _ _ _ _ H). }
    apply bind_raise in H. destruct H as [H | (next & _ & H)].
    { now rewrite (py_get_default_raises _ _ _ _ H). }
    destruct (negb (truthy next)); discriminate.
Qed.

Lemma fetch_loop_pages q params upstream :
  forall raw next reqs n e,
    fetch_loop q params upstream raw next reqs n = Some e ->
    (List.length (requests e) + n
     = List.length reqs + page_count e + unanswered (ended e))%nat.
Proof.
  induction upstream as [|o upstream IH]; intros raw next reqs n e H.
  - simpl in H. destruct (next_request params next) eqn:Hreq; inversion H; subst.
    unfold next_request in Hreq. simpl.
    destruct (truthy next); [|discriminate].
    destruct next; inversion Hreq; simpl; lia.
  - destruct (next_request params next) as [req|] eqn:Hreq.
    2:{ simpl in H. rewrite Hreq in H. inversion H; subst.
        unfold next_request in Hreq. simpl.
        destruct (truthy next); [|discriminate].
        destruct next; inversion Hreq; simpl; lia. }
    destruct o as [r | kind msg].
    2:{ rewrite (fetch_loop_failed _ _ _ _ _ _ _ _ _ _ Hreq) in H.
        inversion H; subst. simpl. rewrite length_app. simpl. lia. }
    rewrite (fetch_loop_responded _ _ _ _ _ _ _ _ _ Hreq) in H.
    destruct (handle_response q raw r) as [[raw' | raw' next']|] eqn:Hh.
    + inversion H; subst. simpl. rewrite length_app. simpl. lia.
    + pose proof (IH _ _ _ _ _ H) as Hi. rewrite length_app in Hi.
      simpl in Hi. lia.
    + inversion H; subst. simpl.
      rewrite (handle_response_raises _ _ _ _ Hh), length_app. simpl. lia.
Qed.

Lemma validate_opt_str_raises v e :
  validate_opt_str v = Raise e -> e = ValidationError.
Proof. destruct v; simpl; intros H; inversion H; reflexivity. Qed.

Lemma validate_opt_list_str_raises v e :
  validate_opt_list_str v = Raise e -> e = ValidationError.
Proof.
  destruct v; simpl; intros H; try (inversion H; reflexivity).
  destruct (mapM_validate_str_cases items) as [(l & Hl & _) | [Hl _]];
    rewrite Hl in H; inversion H; reflexivity.
Qed.

Lemma NormalisedAd_init_raises a t b cu fs ls (st : bool) ps su e :
  NormalisedAd_init a t b cu fs ls (if st then PStr "inactive" else PStr "active")
    ps su = Raise e ->
  e = ValidationError.
Proof.
  unfold NormalisedAd_init. intros H.
  repeat (apply bind_raise in H;
          destruct H as [H | (? & _ & H)];
          [first [ exact (validate_opt_str_raises _ _ H)
                 | exact (validate_opt_list_str_raises _ _ H)
                 | destruct st; discriminate ] |]).
  discriminate.
Qed.

Lemma mapM_normalise_raises py_str records e :
  mapM (_normalise_record py_str) records = Raise e -> no_response e = false.
Proof.
  induction records as [|record records IH]; simpl; [discriminate|].
  intros H. apply bind_raise in H. destruct H as [H | (ad & _ & H)].
  - destruct record; try (inversion H; reflexivity).
    rewrite normalise_dict in H. cbv zeta in H.
    now rewrite (NormalisedAd_init_raises _ _ _ _ _ _ _ _ _ _ H).
  - apply bind_raise in H. destruct H as [H | (ads & _ & H)]; [auto | discriminate].
Qed.

(** X10. The page count that [fetch_ads] logs is the number of responses
    it received: it equals the number of requests issued, less one exactly
    when the fetch ends on a request that got no response (a timeout or
    another transport failure). *)
Theorem logged_pages_count_responses py_str q tok upstream run :
  fetch_ads py_str q tok upstream = Some run ->
  List.length (issued run)
  = (log_pages (logged run) + unanswered (outcome run))%nat.
Proof.
  unfold fetch_ads. intros H.
  destruct (fetch_loop q (build_params q tok) upstream [] PNone [] 0)
    as [e|] eqn:He; [|discriminate].
  inversion H; subst. simpl.
  pose proof (fetch_loop_pages _ _ _ _ _ _ _ _ He) as Hp. simpl in Hp.
  rewrite Nat.add_0_r in Hp. rewrite Hp. f_equal.
  destruct (ended e) as [raw | e0] eqn:Hend; simpl.
  - unfold finish.
    destruct (mapM _ _) as [ads | e1] eqn:Hm; simpl; auto.
    now rewrite (mapM_normalise_raises _ _ _ Hm).
  - destruct e0; simpl; auto.
    destruct (is_timeout kind); reflexivity.
Qed.

Lemma logged_pages_count_responses_witness :
  exists run,
    fetch_ads str_of tech_query "test-token"
      [Responded first_page; Failed ReadTimeout "Timeout"] = Some run
    /\ List.length (issued run) = 2%nat
    /\ log_pages (logged run) = 1%nat
    /\ List.length (issued run)
       = (log_pages (logged run) + unanswered (outcome run))%nat.
Proof.
  eexists. split; [reflexivity|]. split; [reflexivity|]. split; [reflexivity|].
  apply (logged_pages_count_responses str_of tech_query "test-token"
           [Responded first_page; Failed ReadTimeout "Timeout"]).
  reflexivity.
Defined.

(** A script in which no page is empty: every 200 response whose records
    can be read holds at least one. *)
Definition no_empty_page (upstream : list http_outcome) : Prop :=
  forall r items,
    In (Responded r) upstream -> status_code r = 200%Z ->
    page_data r = Ok items -> items <> [].

Lemma fetch_loop_page_bound q params upstream :
  forall raw next reqs n e,
    no_empty_page upstream ->
    fetch_loop q params upstream raw next reqs n = Some e ->
    (n <= List.length raw)%nat ->
    (Z.of_nat (List.length raw) < limit q)%Z \/ n = 0%nat ->
    (Z.of_nat (page_count e) <= Z.max 1 (limit q))%Z.
Proof.
  induction upstream as [|o upstream IH]; intros raw next reqs n e Hne H Hn Hl.
  - simpl in H. destruct (next_request params next); inversion H; subst.
    simpl. lia.
  - destruct (next_request params next) as [req|] eqn:Hreq.
    2:{ simpl in H. rewrite Hreq in H. inversion H; subst. simpl. lia. }
    destruct o as [r | kind msg].
    2:{ rewrite (fetch_loop_failed _ _ _ _ _ _ _ _ _ _ Hreq) in H.
        inversion H; subst. simpl. lia. }
    rewrite (fetch_loop_responded _ _ _ _ _ _ _ _ _ Hreq) in H.
    destruct (handle_response q raw r) as [[raw' | raw' next']|] eqn:Hh;
      try (inversion H; subst; simpl; lia).
    destruct (handle_response_continue _ _ _ _ _ Hh)
      as (Hs & _ & _ & items & Hd & -> & Hlt).
    assert (Hi : items <> []) by (apply (Hne r items); simpl; auto).
    apply (IH _ _ _ _ _ (fun r0 i0 Hin => Hne r0 i0 (or_intror Hin)) H).
    + rewrite length_app. destruct items; [contradiction|]. simpl. lia.
    + left. exact Hlt.
Qed.

(** X11. Against an upstream that never sends an empty page, a fetch that
    ends has received at most [limit] pages (one page when the limit is
    below one). *)
Theorem fetch_pages_bounded_by_limit py_str q tok upstream run :
  no_empty_page upstream ->
  fetch_ads py_str q tok upstream = Some run ->
  (Z.of_nat (log_pages (logged run)) <= Z.max 1 (limit q))%Z.
Proof.
  unfold fetch_ads. intros Hne H.
  destruct (fetch_loop q (build_params q tok) upstream [] PNone [] 0)
    as [e|] eqn:He; [|discriminate].
  inversion H; subst. simpl.
  apply (fetch_loop_page_bound _ _ _ _ _ _ _ _ Hne He); auto.
Qed.

Lemma fetch_pages_bounded_by_limit_witness :
  exists run,
    fetch_ads str_of tech_query "test-token"
      [Responded first_page; Responded second_page] = Some run
    /\ (Z.of_nat (log_pages (logged run)) <= Z.max 1 (limit tech_query))%Z.
Proof.
  eexists. split; [reflexivity|].
  apply (fetch_pages_bounded_by_limit str_of tech_query "test-token"
           [Responded first_page; Responded second_page]).
  - intros r items [Hr | [Hr | []]] _ Hd; inversion Hr; subst;
      inversion Hd; discriminate.
  - reflexivity.
Defined.

(** A page without records that announces a further page at [url]. *)
Definition empty_page (url : string) : Response :=
  mkResponse 200 ""
    (Some (PDict [("data", PList []); ("paging", PDict [("next", PStr url)])])).

Lemma advance_empty_pages limit url n :
  (1 <= limit)%Z -> url <> EmptyString ->
  forall next,
    exists next',
      advance limit [] next (repeat (empty_page url) n) = Some ([], next').
Proof.
  intros Hl Hu. induction n as [|n IH]; intros next; simpl.
  - eauto.
  - unfold continuing. simpl.
    destruct (Z.ltb_spec 0 limit); [|lia].
    destruct (String.eqb_spec url ""); [contradiction|]. simpl. apply IH.
Qed.

(** X12. The loop has no cap on pages of its own: while the upstream
    answers with pages that keep it going, the fetch goes on to ask for the
    next page, and any number of empty pages that announce a further page
    do so. *)
Theorem fetch_keeps_following_cursors py_str q tok :
  (forall pages state,
     advance (limit q) [] PNone pages = Some state ->
     fetch_ads py_str q tok (map Responded pages) = None)
  /\ (forall url n,
        (1 <= limit q)%Z -> url <> EmptyString ->
        fetch_ads py_str q tok (map Responded (repeat (empty_page url) n)) = None).
Proof.
  assert (Hnone : forall pages state,
             advance (limit q) [] PNone pages = Some state ->
             fetch_ads py_str q tok (map Responded pages) = None).
  { intros pages [raw next] Ha. unfold fetch_ads.
    destruct (fetch_loop_advance q (build_params q tok) pages [] [] PNone [] 0%nat
                raw next cursor_ok_none Ha) as (reqs & _ & Heq).
    rewrite app_nil_r in Heq. rewrite Heq. simpl.
    destruct (next_request_ok (build_params q tok) next
                (advance_cursor_ok _ _ _ _ _ _ cursor_ok_none Ha)) as [req ->].
    reflexivity. }
  split; [exact Hnone|].
  intros url n Hl Hu.
  destruct (advance_empty_pages (limit q) url n Hl Hu PNone) as [next' Hadv].
  now apply (Hnone _ _ Hadv).
Qed.

Lemma fetch_keeps_following_cursors_witness :
  fetch_ads str_of tech_query "test-token"
    (map Responded (repeat (empty_page next_page_url) 7)) = None.
Proof.
  apply (proj2 (fetch_keeps_following_cursors str_of tech_query "test-token")
           next_page_url 7%nat).
  - simpl. lia.
  - discriminate.
Defined.

(** X13. Two failures that [fetch_ads] does not translate, on any page: a
    transport failure that is no timeout leaves it as the httpx exception
    it is, and a 200 response whose body does not decode raises the
    [ValueError] of the decoder. Neither is the upstream error nor the
    timeout error, and no record of the earlier pages is returned. *)
Theorem fetch_untranslated_failures py_str q tok pages rest raw next :
  advance (limit q) [] PNone pages = Some (raw, next) ->
  (forall msg,
     option_map outcome
       (fetch_ads py_str q tok
          (map Responded pages ++ Failed TransportError msg :: rest))
     = Some (Raise (HttpxError TransportError msg)))
  /\ (forall body,
        option_map outcome
          (fetch_ads py_str q tok
             (map Responded pages ++ Responded (mkResponse 200 body None) :: rest))
        = Some (Raise ValueError)).
Proof.
  intros Ha. split.
  - intros msg.
    destruct (fetch_loop_after_pages q tok pages (Failed TransportError msg)
                rest raw next Ha) as (reqs & req & _ & Hreq & Heq).
    rewrite (fetch_loop_failed _ _ _ _ _ _ _ _ _ _ Hreq) in Heq.
    now rewrite (fetch_ads_of_loop _ _ _ _ _ Heq).
  - intros body.
    destruct (fetch_loop_after_pages q tok pages
                (Responded (mkResponse 200 body None)) rest raw next Ha)
      as (reqs & req & _ & Hreq & Heq).
    rewrite (fetch_loop_responded _ _ _ _ _ _ _ _ _ Hreq) in Heq.
    now rewrite (fetch_ads_of_loop _ _ _ _ _ Heq).
Qed.

Lemma fetch_untranslated_failures_witness :
  (forall msg,
     option_map outcome
       (fetch_ads str_of tech_query "test-token"
          (map Responded [first_page] ++ Failed TransportError msg :: []))
     = Some (Raise (HttpxError TransportError msg)))
  /\ (forall body,
        option_map outcome
          (fetch_ads str_of tech_query "test-token"
             (map Responded [first_page]
              ++ Responded (mkResponse 200 body None) :: []))
        = Some (Raise ValueError)).
Proof.
  apply (fetch_untranslated_failures str_of tech_query "test-token"
           [first_page] [] [record_a; record_b] (PStr next_page_url)).
  reflexivity.
Defined.

(** * [models.py]: building an [AdsQuery]; [app.py]: the endpoint *)

Module QueryModel.

(** [str.upper()] on one character, for the code points an [ascii] holds:
    the letters a-z and the Latin-1 letters from U+00E0 to U+00FE (the
    division sign apart) move down by 32, the sharp s becomes "SS", and
    the upper-case forms of the micro sign and of the y with diaeresis lie
    outside the range ([None]). *)
Definition upper_char (c : ascii) : option string :=
  let n := nat_of_ascii c in
  if ((97 <=? n) && (n <=? 122))%nat
  then Some (String (ascii_of_nat (n - 32)) EmptyString)
  else if (n =? 181)%nat then None
  else if (n =? 223)%nat then Some "SS"
  else if ((224 <=? n) && (n <=? 254) && negb (n =? 247))%nat
  then Some (String (ascii_of_nat (n - 32)) EmptyString)
  else if (n =? 255)%nat then None
  else Some (String c EmptyString).

Fixpoint py_upper (s : string) : option string :=
  match s with
  | EmptyString => Some EmptyString
  | String c s' =>
      match upper_char c, py_upper s' with
      | Some u, Some r => Some (u ++ r)%string
      | _, _ => None
      end
  end.

(** The validator [uppercase_country]. *)
Definition uppercase_country (value : string) : option string := py_upper value.

(** [AdsQuery(industry=..., country=..., limit=...)] on two strings and an
    integer: the strings are stripped, the [Field] bounds are checked on
    the stripped strings and on the limit, and the country that passed is
    handed to [uppercase_country]. The result is [None] when the
    upper-case country leaves the character range of the embedding. *)
Definition AdsQuery_init (industry_ country_ : string) (limit_ : Z)
    : option (result AdsQuery) :=
  let industry_ := strip industry_ in
  let country_ := strip country_ in
  if (String.length industry_ <? 2)%nat
     || (String.length country_ <? 2)%nat || (2 <? String.length country_)%nat
     || (limit_ <? 1)%Z || (100 <? limit_)%Z
  then Some (Raise ValidationError)
  else
    match uppercase_country country_ with
    | Some country_ => Some (Ok (mkAdsQuery industry_ country_ limit_))
    | None => None
    end.

End QueryModel.
Import QueryModel.

Module App.

(** The constraints of the [Query] annotations of [_query_dependency],
    which the framework checks on the raw parameters before it calls the
    function. *)
Definition query_params_ok (industry_ country_ : string) (limit_ : Z) : bool :=
  (2 <=? String.length industry_)%nat
  && (2 <=? String.length country_)%nat && (String.length country_ <=? 2)%nat
  && (1 <=? limit_)%Z && (limit_ <=? 100)%Z.

(** Line 35. *)
Definition _query_dependency (industry_ country_ : string) (limit_ : Z)
    : option (result AdsQuery) :=
  AdsQuery_init industry_ country_ limit_.

Record AdsResponse : Type := mkAdsResponse {
  query : AdsQuery;
  count : nat;
  results : list NormalisedAd
}.

(** What [get_ads] returns: a [JSONResponse] with its status and content,
    or the response model, which the framework sends with status 200. *)
Inductive reply : Type :=
| JSONResponse (code : Z) (content : value)
| Payload (response : AdsResponse).

(** What a call of [get_ads] shows: the requests sent upstream, and the
    reply or the exception it lets through. *)
Record served : Type := mkServed {
  sent : list request;
  answer : result reply
}.

(** What [json.dumps(content, allow_nan=False)] accepts of a value: no
    float that is infinite or not a number, wherever it sits. The strings of
    the embedding hold code points below 256, which UTF-8 encodes. *)
Fixpoint json_compliant (v : value) : bool :=
  match v with
  | PFloat f => PrimFloat.is_finite f
  | PList items | PTuple items => forallb json_compliant items
  | PDict entries => forallb (fun kv => json_compliant (snd kv)) entries
  | _ => true
  end.

(** [JSONResponse(status_code=..., content=...)]: the constructor renders
    the body at once, with [allow_nan=False], and lets the [ValueError] of
    the encoder through. *)
Definition JSONResponse_init (status_code : Z) (content : value) : result reply :=
  if json_compliant content then Ok (JSONResponse status_code content)
  else Raise ValueError.

Definition token_missing : served :=
  mkServed []
    (JSONResponse_init 500 (PDict [("error", PStr "META_ADLIB_TOKEN not set")])).

Section GetAds.
Variable py_str : value -> string.

(** Lines 38-62; [token] is what [os.getenv] returns. Building the
    [AdsResponse] from a query, a length and a list of ads validates
    nothing anew. *)
Definition get_ads (token : option string) (query_ : AdsQuery)
    (upstream : list http_outcome) : option served :=
  match token with
  | None => Some token_missing
  | Some tok =>
      if String.eqb tok "" then Some token_missing
      else
        match fetch_ads py_str query_ tok upstream with
        | None => None
        | Some r =>
            Some (mkServed (issued r)
                    match outcome r with
                    | Raise (MetaTimeoutError _) =>
                        JSONResponse_init 504
                          (PDict [("error", PStr "Upstream timeout")])
                    | Raise (MetaAPIError _ code message) =>
                        JSONResponse_init 502
                          (PDict [("error",
                                   PDict [("code", code);
                                          ("message", message)])])
                    | Raise e => Raise e
                    | Ok ads =>
                        Ok (Payload (mkAdsResponse query_ (List.length ads) ads))
                    end)
        end
  end.
End GetAds.

End App.
Import App.

(** The endpoint tests of the repository. *)
Example endpoint_tests :
  option_map answer
    (get_ads str_of None tech_query [Responded first_page])
  = Some (Ok (JSONResponse 500
                (PDict [("error", PStr "META_ADLIB_TOKEN not set")])))
  /\ option_map answer
       (get_ads str_of (Some "test-token") tech_query [Responded token_expired])
     = Some (Ok (JSONResponse 502
                   (PDict [("error", PDict [("code", PInt 190);
                                            ("message", PStr "Token expired")])])))
  /\ option_map answer
       (get_ads str_of (Some "test-token") tech_query
          [Failed ReadTimeout "Timeout"])
     = Some (Ok (JSONResponse 504 (PDict [("error", PStr "Upstream timeout")])))
  /\ option_map
       (fun s => match answer s with
                 | Ok (Payload r) => Some (count r, map title (results r))
                 | _ => None
                 end)
       (get_ads str_of (Some "test-token") tech_query
          [Responded first_page; Responded second_page])
     = Some (Some (3%nat, [Some "Title C"; Some "Title A"; Some "Title B"]))
  /\ _query_dependency "a" "GB" 50 = Some (Raise ValidationError)
  /\ _query_dependency "finance" "GBR" 50 = Some (Raise ValidationError)
  /\ _query_dependency "finance" "gb" 50
     = Some (Ok (mkAdsQuery "finance" "GB" 50)).
Proof. repeat split. Qed.

(** ** The endpoint *)

Definition token_usable (token : option string) : bool :=
  match token with
  | Some tok => negb (String.eqb tok "")
  | None => false
  end.

Lemma get_ads_with_token py_str token q upstream :
  token_usable token = true ->
  exists tok,
    token = Some tok
    /\ get_ads py_str token q upstream
       = match fetch_ads py_str q tok upstream with
         | None => None
         | Some r =>
             Some (mkServed (issued r)
                     match outcome r with
                     | Raise (MetaTimeoutError _) =>
                         JSONResponse_init 504
                           (PDict [("error", PStr "Upstream timeout")])
                     | Raise (MetaAPIError _ code message) =>
                         JSONResponse_init 502
                           (PDict [("error",
                                    PDict [("code", code);
                                           ("message", message)])])
                     | Raise e => Raise e
                     | Ok ads =>
                         Ok (Payload (mkAdsResponse q (List.length ads) ads))
                     end)
         end.
Proof.
  destruct token as [tok|]; simpl; [|discriminate].
  intros H. exists tok. split; auto.
  destruct (String.eqb tok ""); [discriminate | reflexivity].
Qed.

(** X14. Whatever the upstream does, a reply of [get_ads] that is not the
    response model has status 500, 502 or 504; for a validated query the
    response model carries the query it was asked, a count equal to the
    number of its results and not above the limit (so not above 100), and
    results in descending key order; and an exception that [get_ads] lets
    through is neither of the two errors of the client nor a timeout of the
    transport. *)
Theorem get_ads_replies py_str token q upstream s :
  AdsQuery_valid q = true ->
  get_ads py_str token q upstream = Some s ->
  match answer s with
  | Ok (JSONResponse code _) => code = 500%Z \/ code = 502%Z \/ code = 504%Z
  | Ok (Payload r) =>
      query r = q
      /\ count r = List.length (results r)
      /\ (Z.of_nat (count r) <= limit q <= 100)%Z
      /\ StronglySorted (fun a b => key_lt (sort_key a) (sort_key b) = false)
           (results r)
  | Raise (MetaTimeoutError _) | Raise (MetaAPIError _ _ _) => False
  | Raise (HttpxError kind _) => kind = TransportError
  | Raise _ => True
  end.
Proof.
  intros Hq H.
  destruct (token_usable token) eqn:Ht.
  2:{ assert (s = token_missing).
      { destruct token as [tok|]; simpl in *.
        - destruct (String.eqb tok ""); [|discriminate]. now inversion H.
        - now inversion H. }
      subst. simpl. auto. }
  destruct (get_ads_with_token py_str token q upstream Ht) as (tok & -> & Heq).
  rewrite Heq in H. clear Heq.
  destruct (fetch_ads py_str q tok upstream) as [r|] eqn:Hf; [|discriminate].
  inversion H; subst; clear H. simpl.
  pose proof (valid_limit q Hq) as Hl.
  destruct (outcome r) as [ads | e] eqn:Ho.
  - assert (H0 : (0 <= limit q)%Z) by lia.
    destruct (fetch_ads_returns _ _ _ _ _ _ H0 Hf Ho)
      as (raw & normalised & Hn & ->).
    simpl. repeat split; try lia.
    + rewrite sort_ads_length, <- (Forall2_length Hn), length_firstn. lia.
    + apply (sorted_reverse_descending sort_key).
  - destruct e; simpl; auto;
      try (unfold JSONResponse_init; destruct (json_compliant _); simpl; now auto).
    unfold fetch_ads in Hf.
    destruct (fetch_loop q (build_params q tok) upstream [] PNone [] 0)
      as [e|]; [|discriminate].
    inversion Hf; subst. simpl in Ho.
    destruct (ended e) as [raw | e0]; simpl in Ho.
    + unfold finish in Ho.
      destruct (mapM _ _) as [ads | e1] eqn:Hm; simpl in Ho; [discriminate|].
      apply mapM_normalise_raises in Hm. inversion Ho; subst. discriminate.
    + destruct e0; simpl in Ho; try discriminate.
      destruct kind0; simpl in Ho; inversion Ho; subst; reflexivity.
Qed.

Lemma get_ads_replies_witness :
  exists s,
    get_ads str_of (Some "test-token") tech_query
      [Responded first_page; Responded second_page] = Some s
    /\ match answer s with
       | Ok (JSONResponse code _) => code = 500%Z \/ code = 502%Z \/ code = 504%Z
       | Ok (Payload r) =>
           query r = tech_query
           /\ count r = List.length (results r)
           /\ (Z.of_nat (count r) <= limit tech_query <= 100)%Z
           /\ StronglySorted
                (fun a b => key_lt (sort_key a) (sort_key b) = false) (results r)
       | Raise (MetaTimeoutError _) | Raise (MetaAPIError _ _ _) => False
       | Raise (HttpxError kind _) => kind = TransportError
       | Raise _ => True
       end.
Proof.
  eexists. split; [reflexivity|].
  apply (get_ads_replies str_of (Some "test-token") tech_query
           [Responded first_page; Responded second_page]).
  - reflexivity.
  - reflexivity.
Defined.

Lemma fetch_ads_issues_request py_str q tok upstream r :
  fetch_ads py_str q tok upstream = Some r -> issued r <> [].
Proof.
  unfold fetch_ads.
  destruct (fetch_loop q (build_params q tok) upstream [] PNone [] 0)
    as [e|] eqn:He; [|discriminate].
  intros H. inversion H; subst. simpl.
  destruct upstream as [|o upstream]; [discriminate|].
  simpl in He. destruct o as [r | kind msg].
  - destruct (handle_response q [] r) as [[raw | raw next]|];
      try (inversion He; subst; discriminate).
    destruct (fetch_loop_trace _ _ _ _ _ _ _ _ He) as (k & _ & _ & _ & _ & Hreqs).
    destruct (next_request (build_params q tok) next).
    + rewrite Hreqs. discriminate.
    + destruct Hreqs as [-> _]. discriminate.
  - inversion He; subst. discriminate.
Qed.

(** X15. [get_ads] sends no request upstream exactly when the token is
    missing or empty, and its reply is then the 500 response that names
    the variable, whatever the query and the upstream; with a token, the
    requests sent are those of the fetch. *)
Theorem get_ads_needs_token py_str token q upstream s :
  get_ads py_str token q upstream = Some s ->
  (sent s = [] <-> token = None \/ token = Some EmptyString)
  /\ (sent s = [] ->
      answer s
      = Ok (JSONResponse 500 (PDict [("error", PStr "META_ADLIB_TOKEN not set")])))
  /\ (forall tok, token = Some tok -> tok <> EmptyString ->
      option_map issued (fetch_ads py_str q tok upstream) = Some (sent s)).
Proof.
  intros H.
  destruct (token_usable token) eqn:Ht.
  - destruct (get_ads_with_token py_str token q upstream Ht) as (tok & -> & Heq).
    rewrite Heq in H. clear Heq.
    destruct (fetch_ads py_str q tok upstream) as [r|] eqn:Hf; [|discriminate].
    inversion H; subst; clear H. simpl.
    pose proof (fetch_ads_issues_request _ _ _ _ _ Hf) as Hne.
    simpl in Ht. apply negb_true_iff, String.eqb_neq in Ht.
    split; [|split].
    + split; [contradiction|]. intros [Hc | Hc]; inversion Hc. contradiction.
    + contradiction.
    + intros tok' Htok _. inversion Htok; subst. now rewrite Hf.
  - assert (Hs : s = token_missing /\ (token = None \/ token = Some EmptyString)).
    { destruct token as [tok|]; simpl in *.
      - apply negb_false_iff in Ht. rewrite Ht in H. apply String.eqb_eq in Ht.
        subst. inversion H. auto.
      - inversion H. auto. }
    destruct Hs as [-> Htok]. simpl. split; [tauto|]. split; auto.
    intros tok -> Hne. destruct Htok as [Hc | Hc]; inversion Hc. contradiction.
Qed.

Lemma get_ads_needs_token_witness :
  exists s,
    get_ads str_of (Some "") tech_query [Responded first_page] = Some s
    /\ (sent s = [] <-> Some "" = None \/ Some "" = Some EmptyString)
    /\ (sent s = [] ->
        answer s
        = Ok (JSONResponse 500
                (PDict [("error", PStr "META_ADLIB_TOKEN not set")])))
    /\ (forall tok, Some "" = Some tok -> tok <> EmptyString ->
        option_map issued
          (fetch_ads str_of tech_query tok [Responded first_page])
        = Some (sent s)).
Proof.
  eexists. split; [reflexivity|].
  apply (get_ads_needs_token str_of (Some "") tech_query [Responded first_page]).
  reflexivity.
Defined.



(** An error object whose code is the float that [1e999] decodes to: the
    502 response cannot be rendered. *)
Example infinite_code_is_not_rendered :
  option_map answer
    (get_ads str_of (Some "test-token") tech_query
       [Responded
          (mkResponse 400 ""
             (Some (PDict [("error", PDict [("code", PFloat infinity);
                                            ("message", PStr "Bad")])])))])
  = Some (Raise ValueError).
Proof. reflexivity. Qed.

(** ** Building a query *)

Definition is_ascii (c : ascii) : bool := (nat_of_ascii c <? 128)%nat.

Fixpoint ascii_only (s : string) : bool :=
  match s with
  | EmptyString => true
  | String c s' => is_ascii c && ascii_only s'
  end.

Definition is_lower (c : ascii) : bool :=
  ((97 <=? nat_of_ascii c) && (nat_of_ascii c <=? 122))%nat.

Fixpoint no_lower (s : string) : bool :=
  match s with
  | EmptyString => true
  | String c s' => negb (is_lower c) && no_lower s'
  end.

(** On an ASCII character [str.upper()] gives one ASCII character, which
    it leaves alone, which is no lower-case letter, and which is whitespace
    exactly when the character is. *)
Lemma upper_char_ascii c :
  is_ascii c = true ->
  exists d,
    upper_char c = Some (String d EmptyString)
    /\ is_ascii d = true
    /\ upper_char d = Some (String d EmptyString)
    /\ is_whitespace d = is_whitespace c
    /\ is_lower d = false.
Proof.
  destruct c as [[] [] [] [] [] [] [] []]; intros H; try discriminate H;
    eexists; repeat split; reflexivity.
Qed.

(** [u] is the upper case, character by character, of the ASCII string
    [s]. *)
Inductive raised : string -> string -> Prop :=
| raised_nil : raised EmptyString EmptyString
| raised_cons c d s u :
    is_ascii c = true ->
    upper_char c = Some (String d EmptyString) ->
    raised s u ->
    raised (String c s) (String d u).

Lemma raised_exists s : ascii_only s = true -> exists u, raised s u.
Proof.
  induction s as [|c s IH]; simpl.
  - exists EmptyString. constructor.
  - rewrite andb_true_iff. intros [Hc Hs].
    destruct (IH Hs) as [u Hu].
    destruct (upper_char_ascii c Hc) as (d & Hd & _).
    exists (String d u). now constructor.
Qed.

Lemma raised_upper s u : raised s u -> py_upper s = Some u.
Proof.
  induction 1 as [|c d s u Hc Hd _ IH]; simpl; auto. now rewrite Hd, IH.
Qed.

Lemma raised_length s u : raised s u -> String.length u = String.length s.
Proof. induction 1; simpl; auto. Qed.

Lemma raised_char c d :
  is_ascii c = true -> upper_char c = Some (String d EmptyString) ->
  is_ascii d = true /\ upper_char d = Some (String d EmptyString)
  /\ is_whitespace d = is_whitespace c /\ is_lower d = false.
Proof.
  intros Hc Hd. destruct (upper_char_ascii c Hc) as (d' & Hd' & H).
  rewrite Hd in Hd'. inversion Hd'; subst. exact H.
Qed.

Lemma raised_fixed s u : raised s u -> raised u u /\ no_lower u = true.
Proof.
  induction 1 as [|c d s u Hc Hd _ [IH1 IH2]]; simpl.
  - split; [constructor | reflexivity].
  - destruct (raised_char c d Hc Hd) as (Ha & Hu & _ & Hl).
    split; [now constructor|]. now rewrite Hl, IH2.
Qed.

Lemma raised_lstrip s u : raised s u -> raised (lstrip s) (lstrip u).
Proof.
  induction 1 as [|c d s u Hc Hd Hr IH]; simpl; [constructor|].
  destruct (raised_char c d Hc Hd) as (_ & _ & -> & _).
  destruct (is_whitespace c); auto. now constructor.
Qed.

Lemma raised_rstrip s u : raised s u -> raised (rstrip s) (rstrip u).
Proof.
  induction 1 as [|c d s u Hc Hd Hr IH]; simpl; [constructor|].
  destruct (raised_char c d Hc Hd) as (_ & _ & -> & _).
  inversion IH as [Hs Hu | c' d' s' u' Hc' Hd' Hr' Hs Hu].
  - destruct (is_whitespace c); constructor; auto. constructor.
  - constructor; auto. rewrite Hs, Hu. exact IH.
Qed.

Lemma raised_strip s u : raised s u -> raised (strip s) (strip u).
Proof. intros H. apply raised_rstrip, raised_lstrip, H. Qed.

(** X17. A query built from an ASCII country code keeps the stripped
    industry and the limit, holds a country of exactly two characters none
    of which is a lower-case letter, satisfies the bounds of its fields,
    and builds itself again: validating a validated query changes
    nothing. *)
Theorem adsquery_revalidates industry_ country_ limit_ q :
  ascii_only country_ = true ->
  AdsQuery_init industry_ country_ limit_ = Some (Ok q) ->
  AdsQuery_init (industry q) (country q) (limit q) = Some (Ok q)
  /\ industry q = strip industry_
  /\ limit q = limit_
  /\ String.length (country q) = 2%nat
  /\ no_lower (country q) = true
  /\ AdsQuery_valid q = true.
Proof.
  intros Hascii H.
  destruct (raised_exists country_ Hascii) as [u0 Hu0].
  pose proof (raised_strip _ _ Hu0) as Hu.
  set (u := strip u0) in *.
  unfold AdsQuery_init, uppercase_country in H. cbv zeta in H.
  rewrite (raised_upper _ _ Hu) in H.
  destruct (_ || _) eqn:Hbad; [discriminate|].
  inversion H; subst; clear H. simpl.
  destruct (raised_fixed _ _ Hu) as [Hfix Hlow].
  assert (Hsu : strip u = u) by apply strip_idempotent.
  pose proof (raised_length _ _ Hu) as Hlen.
  unfold AdsQuery_init, uppercase_country. cbv zeta.
  rewrite strip_idempotent, Hsu, Hlen, Hbad, (raised_upper _ _ Hfix).
  repeat match goal with |- _ /\ _ => split end; auto.
  - rewrite !orb_false_iff in Hbad. destruct Hbad as [[[[_ H1] H2] _] _].
    apply Nat.ltb_ge in H1, H2. lia.
  - unfold AdsQuery_valid. cbn [industry country limit]. rewrite Hlen.
    rewrite !orb_false_iff in Hbad.
    destruct Hbad as [[[[Hi H1] H2] H3] H4].
    apply Nat.ltb_ge in Hi, H1, H2. apply Z.ltb_ge in H3, H4.
    rewrite !andb_true_iff. repeat split.
    + now apply Nat.leb_le.
    + apply Nat.eqb_eq. lia.
    + now apply Z.leb_le.
    + now apply Z.leb_le.
Qed.

Lemma adsquery_revalidates_witness :
  AdsQuery_init "finance" "GB" 50 = Some (Ok (mkAdsQuery "finance" "GB" 50))
  /\ "finance" = strip " finance "
  /\ 50%Z = 50%Z
  /\ String.length "GB" = 2%nat
  /\ no_lower "GB" = true
  /\ AdsQuery_valid (mkAdsQuery "finance" "GB" 50) = true.
Proof.
  apply (adsquery_revalidates " finance " "gb " 50 (mkAdsQuery "finance" "GB" 50)).
  - reflexivity.
  - reflexivity.
Defined.

(** Outside ASCII the country of a query need not have two characters: a
    sharp s is one character when the length is checked and two once the
    validator has run, and such a query is rejected when built again. *)
Example sharp_s_country :
  let sharp_s := String (ascii_of_nat 223) "a" in
  AdsQuery_init "finance" sharp_s 50 = Some (Ok (mkAdsQuery "finance" "SSA" 50))
  /\ AdsQuery_init "finance" "SSA" 50 = Some (Raise ValidationError).
Proof. split; reflexivity. Qed.

Lemma lstrip_length s : (String.length (lstrip s) <= String.length s)%nat.
Proof.
  induction s as [|c s IH]; simpl; auto.
  destruct (is_whitespace c); simpl; lia.
Qed.

Lemma rstrip_length s : (String.length (rstrip s) <= String.length s)%nat.
Proof.
  induction s as [|c s IH]; simpl; auto.
  destruct (rstrip s); [destruct (is_whitespace c)|]; simpl in *; lia.
Qed.

Lemma strip_length s : (String.length (strip s) <= String.length s)%nat.
Proof.
  unfold strip. etransitivity; [apply rstrip_length | apply lstrip_length].
Qed.

(** X18. The checks of the route do not imply those of the model: of the
    arguments that pass the [Query] constraints, [_query_dependency] raises
    the validation error of [AdsQuery] for exactly those whose industry or
    country is left with fewer than two characters once its surrounding
    whitespace is stripped; arguments without such whitespace never make
    it raise. *)
Theorem query_dependency_rejects_padding industry_ country_ limit_ :
  query_params_ok industry_ country_ limit_ = true ->
  (_query_dependency industry_ country_ limit_ = Some (Raise ValidationError)
   <-> (String.length (strip industry_) < 2)%nat
       \/ (String.length (strip country_) < 2)%nat)
  /\ (forall e, _query_dependency industry_ country_ limit_ = Some (Raise e) ->
      e = ValidationError)
  /\ (strip industry_ = industry_ -> strip country_ = country_ ->
      forall e, _query_dependency industry_ country_ limit_ <> Some (Raise e)).
Proof.
  unfold query_params_ok. rewrite !andb_true_iff.
  intros [[[[Hi Hc1] Hc2] Hl1] Hl2].
  apply Nat.leb_le in Hi, Hc1, Hc2. apply Z.leb_le in Hl1, Hl2.
  pose proof (strip_length country_) as Hsc.
  unfold _query_dependency, AdsQuery_init. cbv zeta.
  destruct (Nat.ltb_spec (String.length (strip industry_)) 2) as [Hsi | Hsi];
    destruct (Nat.ltb_spec (String.length (strip country_)) 2) as [Hs2 | Hs2];
    simpl; rewrite ?orb_true_r;
    try (split; [split; auto | split; [intros e H; now inversion H|]];
         intros Ei Ec; rewrite ?Ei, ?Ec in *; lia).
  destruct (Nat.ltb_spec 2 (String.length (strip country_))); [lia|].
  destruct (Z.ltb_spec limit_ 1); [lia|].
  destruct (Z.ltb_spec 100 limit_); [lia|]. simpl.
  destruct (uppercase_country (strip country_)); (split; [split|split]);
    try discriminate; try lia; intros; discriminate.
Qed.

Lemma query_dependency_rejects_padding_witness :
  (_query_dependency "a " "GB" 50 = Some (Raise ValidationError)
   <-> (String.length (strip "a ") < 2)%nat
       \/ (String.length (strip "GB") < 2)%nat)
  /\ (forall e, _query_dependency "a " "GB" 50 = Some (Raise e) ->
      e = ValidationError)
  /\ (strip "a " = "a " -> strip "GB" = "GB" ->
      forall e, _query_dependency "a " "GB" 50 <> Some (Raise e)).
Proof.
  apply (query_dependency_rejects_padding "a " "GB" 50). reflexivity.
Defined.
